(** * fraud-graph-engine: the graph builder, loop detector and risk scorer

    A shallow embedding of [src/phase3/fraud_engine.py] (the modular core:
    graph builder, loop detector, scorer, arc and ring-cluster builders and
    the one-shot pipeline) and of the final-score, classification and summary
    steps of [src/Risk_scorer.py], the earlier script the same code was
    lifted from.

    Conventions of the embedding:
    - pandas DataFrames are lists of row records, in row order;
    - the NetworkX [MultiDiGraph] is a node dictionary plus the list of its
      edges in insertion order (parallel edges are kept);
    - Python sets and dictionaries keyed by account id are [gset string] and
      [gmap string _]; the literal constant tables are association lists in
      the order they are written;
    - Python floats are exact rationals [Q]; [round(x, 1)] is rounding to the
      nearest tenth with ties to the even tenth;
    - iterating a dictionary ([scores.items()]) is iterating the entry list
      of the [gmap]; its order is not Python's insertion order, and nothing
      proved about such a loop depends on the order;
    - an exception ([KeyError] on [G.nodes[acc]], [ValueError] of
      [risk_order.index]) is [None]. *)

From Stdlib Require Import QArith Qround Qminmax Lqa OrderedTypeEx Sorted.
From stdpp Require Import base option list gmap sets strings pretty.

Local Open Scope string_scope.
Local Open Scope list_scope.
Local Open Scope Z_scope.

Set Warnings "-clear-no-such-hyp".

(* ===================================================================== *)
(** * Constants *)
(* ===================================================================== *)

Definition FLAG_WEIGHTS : list (string * Z) :=
  [ ("shared_device",               30);
    ("shared_ip",                   25);
    ("money_received_from_flagged", 20);
    ("money_sent_to_flagged",       20);
    ("shared_touchpoint",           15);
    ("transaction_loop",            40);
    ("high_velocity",               20) ].

Definition THRESHOLDS : list (string * (Z * Z)) :=
  [ ("CLEAN",      (0,  30));
    ("WATCH",      (31, 60));
    ("SUSPICIOUS", (61, 90));
    ("BLOCK",      (91, 9999)) ].

Definition TIER_COLORS_HEX : list (string * string) :=
  [ ("CLEAN",      "#00cc66");
    ("WATCH",      "#ffcc00");
    ("SUSPICIOUS", "#ff8c00");
    ("BLOCK",      "#ff2244") ].

Definition TIER_COLORS_RGB : list (string * list Z) :=
  [ ("CLEAN",      [0;   204; 102; 220]);
    ("WATCH",      [255; 204; 0;   220]);
    ("SUSPICIOUS", [255; 140; 0;   220]);
    ("BLOCK",      [255; 34;  68;  220]) ].

Definition CONTAMINATION_WEIGHT : Q := 3 # 10.

(** [d[k]] on a literal table: the first binding of [k]. *)
Fixpoint assoc {V} (k : string) (d : list (string * V)) : option V :=
  match d with
  | [] => None
  | (k', v) :: d' => if String.eqb k k' then Some v else assoc k d'
  end.

(** [FLAG_WEIGHTS[k]]; every key the scorer uses is in the table. *)
Definition flag_weight (k : string) : Z := default 0 (assoc k FLAG_WEIGHTS).

(* ===================================================================== *)
(** * Source tables *)
(* ===================================================================== *)

Record Account := mkAccount {
  a_account_id : string;
  a_type       : string;
  a_holder     : string;
  a_ring       : string;
  a_city       : string;
  a_lat        : Q;
  a_lon        : Q
}.

Record IdentifierAssignment := mkIdent {
  i_account_id      : string;
  identifier_type   : string;
  identifier_value  : string
}.

Record TouchpointAssignment := mkTouch {
  t_account_id  : string;
  touchpoint_id : string
}.

Record Transaction := mkTxn {
  txn_id    : string;
  sender    : string;
  receiver  : string;
  amount    : Z;
  timestamp : Z
}.

(** The dictionary of DataFrames returned by [get_dataframes]. *)
Record DataFrames := mkDfs {
  accounts     : list Account;
  identifiers  : list IdentifierAssignment;
  touchpoints  : list TouchpointAssignment;
  transactions : list Transaction
}.

(* ===================================================================== *)
(** * The multigraph *)
(* ===================================================================== *)

Inductive EdgeType := shared_ip | shared_device | shared_touchpoint | money_flow.

Global Instance EdgeType_eq_dec : EqDecision EdgeType.
Proof. solve_decision. Defined.

(** Attributes carried by a [money_flow] edge only. *)
Record TxnAttrs := mkTxnAttrs {
  e_amount    : Z;
  e_timestamp : Z;
  e_txn_id    : string
}.

Record Edge := mkEdge {
  e_src     : string;
  e_dst     : string;
  edge_type : EdgeType;
  e_attrs   : option TxnAttrs
}.

(** [nodes] maps a node to its attribute dictionary: [Some row] for a node
    added by [G.add_node] from an account row, [None] for the empty
    dictionary of a node that [G.add_edge] created on the fly. *)
Record Graph := mkGraph {
  nodes : gmap string (option Account);
  edges : list Edge
}.

Definition empty_graph : Graph := mkGraph ∅ [].

(** [G.add_node(id, **attrs)]: creates the node or overwrites its attributes. *)
Definition add_node (row : Account) (G : Graph) : Graph :=
  mkGraph (<[a_account_id row := Some row]> (nodes G)) (edges G).

(** A node that an edge mentions is created, with no attributes, when it is
    not in the graph yet. *)
Definition touch_node (n : string) (ns : gmap string (option Account))
  : gmap string (option Account) :=
  match ns !! n with
  | Some _ => ns
  | None => <[n := None]> ns
  end.

(** [G.add_edge(u, v, **attrs)]. *)
Definition add_edge (u v : string) (t : EdgeType) (d : option TxnAttrs)
    (G : Graph) : Graph :=
  mkGraph (touch_node v (touch_node u (nodes G))) (edges G ++ [mkEdge u v t d]).

(** [G.edges(acc, data=True)] / [G.out_edges(acc)] and [G.in_edges(acc)]. *)
Definition out_edges (G : Graph) (acc : string) : list Edge :=
  filter (λ e, e_src e = acc) (edges G).

Definition in_edges (G : Graph) (acc : string) : list Edge :=
  filter (λ e, e_dst e = acc) (edges G).

(* ===================================================================== *)
(** * Graph builder *)
(* ===================================================================== *)

(** [df.groupby(key)["account_id"].apply(list)]: one entry per distinct key,
    keys in ascending order, the account ids of a key in row order. *)
Fixpoint group_insert (k a : string) (gs : list (string * list string))
  : list (string * list string) :=
  match gs with
  | [] => [(k, [a])]
  | (k', l) :: gs' =>
      if String.eqb k k' then (k', l ++ [a]) :: gs'
      else if String.ltb k k' then (k, [a]) :: gs
      else (k', l) :: group_insert k a gs'
  end.

Definition groupby (rows : list (string * string)) : list (string * list string) :=
  foldl (λ gs r, group_insert r.1 r.2 gs) [] rows.

(** [itertools.combinations(accs, 2)]. *)
Fixpoint combinations2 (l : list string) : list (string * string) :=
  match l with
  | [] => []
  | a :: l' => (pair a <$> l') ++ combinations2 l'
  end.

(** The body of the three [for a, b in combinations(accs, 2)] loops. *)
Definition add_shared_pair (t : EdgeType) (G : Graph) (p : string * string) : Graph :=
  add_edge p.2 p.1 t None (add_edge p.1 p.2 t None G).

Definition add_shared_groups (t : EdgeType) (grps : list (string * list string))
    (G : Graph) : Graph :=
  foldl (λ G g, foldl (add_shared_pair t) G (combinations2 g.2)) G grps.

(** The [identifier_value]/[account_id] columns of the IP rows, of the device
    rows (MAC or IMEI), and the [touchpoint_id]/[account_id] columns. *)
Definition ip_rows (dfs : DataFrames) : list (string * string) :=
  (λ r, (identifier_value r, i_account_id r)) <$>
    filter (λ r, identifier_type r = "IP Address") (identifiers dfs).

Definition dev_rows (dfs : DataFrames) : list (string * string) :=
  (λ r, (identifier_value r, i_account_id r)) <$>
    filter (λ r, identifier_type r ∈ ["Device MAC"; "IMEI"]) (identifiers dfs).

Definition tp_rows (dfs : DataFrames) : list (string * string) :=
  (λ r, (touchpoint_id r, t_account_id r)) <$> touchpoints dfs.

Definition ip_grps (dfs : DataFrames) : list (string * list string) :=
  groupby (ip_rows dfs).

Definition dev_grps (dfs : DataFrames) : list (string * list string) :=
  groupby (dev_rows dfs).

Definition tp_grps (dfs : DataFrames) : list (string * list string) :=
  groupby (tp_rows dfs).

Definition add_money_flow (G : Graph) (row : Transaction) : Graph :=
  add_edge (sender row) (receiver row) money_flow
    (Some (mkTxnAttrs (amount row) (timestamp row) (txn_id row))) G.

Definition build_graph (dfs : DataFrames) : Graph :=
  let G := foldl (λ G row, add_node row G) empty_graph (accounts dfs) in
  let G := add_shared_groups shared_ip (ip_grps dfs) G in
  let G := add_shared_groups shared_device (dev_grps dfs) G in
  let G := add_shared_groups shared_touchpoint (tp_grps dfs) G in
  foldl add_money_flow G (transactions dfs).

(* ===================================================================== *)
(** * Tier classifier *)
(* ===================================================================== *)

(** [for label, (lo, hi) in THRESHOLDS.items(): if lo <= score <= hi: ...]
    with the final [return "BLOCK"]. *)
Fixpoint classify_in (ths : list (string * (Z * Z))) (score : Q) : string :=
  match ths with
  | [] => "BLOCK"
  | (label, (lo, hi)) :: ths' =>
      if Qle_bool (inject_Z lo) score && Qle_bool score (inject_Z hi)
      then label
      else classify_in ths' score
  end.

Definition classify (score : Q) : string := classify_in THRESHOLDS score.

(* ===================================================================== *)
(** * Loop detector (3+ node money-flow cycles only) *)
(* ===================================================================== *)

(** The edge set of [money_graph], the simple [DiGraph] of the money-flow
    edges whose two endpoints are accounts. *)
Definition money_graph (G : Graph) (account_ids : gset string)
  : list (string * string) :=
  (λ e, (e_src e, e_dst e)) <$>
    filter (λ e, edge_type e = money_flow
                 ∧ e_src e ∈ account_ids ∧ e_dst e ∈ account_ids) (edges G).

(** Its nodes, each once. *)
Definition graph_nodes (E : list (string * string)) : list string :=
  remove_dups (p ← E; [p.1; p.2]).

(** [nx.simple_cycles] is library code: it yields every elementary circuit of
    the digraph once, as the list of its nodes.  The model lists the circuits
    by their earliest node [s]: a depth-first extension of the path
    [s .. cur] through nodes that are later than [s] and not yet on the
    path ([avail]), closing a circuit whenever [cur -> s] is an edge.  The
    order of the circuits and the rotation in which each is listed are not
    used by the caller. *)
Fixpoint cycles_through (fuel : nat) (E : list (string * string)) (s : string)
    (avail : list string) (cur : string) (path : list string)
  : list (list string) :=
  (if bool_decide ((cur, s) ∈ E) then [path] else []) ++
  match fuel with
  | O => []
  | S fuel' =>
      x ← avail;
      if bool_decide ((cur, x) ∈ E)
      then cycles_through fuel' E s (filter (λ y, y ≠ x) avail) x (path ++ [x])
      else []
  end.

Fixpoint simple_cycles_from (E : list (string * string)) (ns : list string)
  : list (list string) :=
  match ns with
  | [] => []
  | s :: rest =>
      cycles_through (length rest) E s rest s [s] ++ simple_cycles_from E rest
  end.

Definition simple_cycles (E : list (string * string)) : list (list string) :=
  simple_cycles_from E (graph_nodes E).

Definition _detect_loops (G : Graph) (account_ids : gset string) : gset string :=
  list_to_set
    (cycle ← simple_cycles (money_graph G account_ids);
     if bool_decide (3 ≤ length cycle)%nat then cycle else []).

(* ===================================================================== *)
(** * Risk scorer *)
(* ===================================================================== *)

(** [round(x, 1)]: the nearest tenth, a tie going to the even tenth. *)
Definition round_half_even (x : Q) : Z :=
  let f := Qfloor x in
  match ((x - inject_Z f) ?= (1 # 2))%Q with
  | Lt => f
  | Gt => f + 1
  | Eq => if Z.even f then f else f + 1
  end.

Definition round1 (x : Q) : Q := Qred (Qmake (round_half_even (x * 10)) 10).

Record Flag := mkFlag {
  flag   : string;
  weight : Z
}.

Global Instance Flag_eq_dec : EqDecision Flag.
Proof. solve_decision. Defined.

Record ScoreRecord := mkScore {
  account_id     : string;
  holder         : string;
  ring           : string;
  city           : string;
  lat            : Q;
  lon            : Q;
  account_type   : string;
  own_score      : Z;
  contamination  : Q;
  final_score    : Q;
  classification : string;
  color_hex      : string;
  color_rgb      : list Z;
  flags          : list Flag;
  in_loop        : bool
}.

Definition account_ids_of (dfs : DataFrames) : gset string :=
  list_to_set (a_account_id <$> accounts dfs).

(** [transactions.groupby("sender").size()] at one sender. *)
Definition send_count (txns : list Transaction) (s : string) : nat :=
  length (filter (λ t, sender t = s) txns).

Definition high_velocity_senders (txns : list Transaction) : gset string :=
  list_to_set (filter (λ s, (3 ≤ send_count txns s)%nat) (sender <$> txns)).

(** [etc[t]] after the two counting loops over [G.edges(acc)] and
    [G.in_edges(acc)]. *)
Definition etc (G : Graph) (acc : string) (t : EdgeType) : nat :=
  (length (filter (λ e, edge_type e = t) (out_edges G acc))
   + length (filter (λ e, edge_type e = t) (in_edges G acc)))%nat.

(** [w = FLAG_WEIGHTS[k]; score += w; flags.append({"flag": name, "weight": w})] *)
Definition fire (k name : string) (st : Z * list Flag) : Z * list Flag :=
  let w := flag_weight k in (st.1 + w, st.2 ++ [mkFlag name w]).

Definition in_money (G : Graph) (acc : string) : list string :=
  e_src <$> filter (λ e, edge_type e = money_flow) (in_edges G acc).

Definition out_money (G : Graph) (acc : string) : list string :=
  e_dst <$> filter (λ e, edge_type e = money_flow) (out_edges G acc).

(** One iteration of the own-score loop: the final [(score, flags)]. *)
Definition own_score_flags (G : Graph) (loop_accounts hv : gset string)
    (acc : string) : Z * list Flag :=
  let st := (0, []) in
  let st := if bool_decide (0 < etc G acc shared_ip)%nat
            then fire "shared_ip" "Shared IP Address" st else st in
  let st := if bool_decide (0 < etc G acc shared_device)%nat
            then fire "shared_device" "Shared Device / IMEI" st else st in
  let st := if bool_decide (0 < etc G acc shared_touchpoint)%nat
            then fire "shared_touchpoint" "Shared ATM / Portal" st else st in
  let st := if bool_decide (in_money G acc ≠ [])
            then fire "money_received_from_flagged"
                   ("Received money (" +:+ pretty (length (in_money G acc)) +:+ " txn)") st
            else st in
  let st := if bool_decide (out_money G acc ≠ [])
            then fire "money_sent_to_flagged"
                   ("Sent money (" +:+ pretty (length (out_money G acc)) +:+ " txn)") st
            else st in
  let st := if bool_decide (acc ∈ loop_accounts)
            then fire "transaction_loop" "Transaction Loop Detected" st else st in
  let st := if bool_decide (acc ∈ hv)
            then fire "high_velocity" "High Velocity Sending" st else st in
  st.

(** The [nbrs] set of the contamination loop. *)
Definition neighbours (G : Graph) (account_ids : gset string) (acc : string)
  : gset string :=
  list_to_set (filter (λ v, v ∈ account_ids) (e_dst <$> out_edges G acc))
  ∪ list_to_set (filter (λ u, u ∈ account_ids) (e_src <$> in_edges G acc)).

(** [sum(own_scores[n] for n in nbrs)]. *)
Definition sum_own (own_scores : gmap string Z) (nbrs : gset string) : Z :=
  foldr Z.add 0 ((λ n, default 0 (own_scores !! n)) <$> elements nbrs).

Definition contamination_of (own_scores : gmap string Z) (nbrs : gset string) : Q :=
  if decide (nbrs = ∅) then 0%Q
  else round1 (CONTAMINATION_WEIGHT
               * (inject_Z (sum_own own_scores nbrs)
                  / inject_Z (Z.of_nat (size nbrs))))%Q.

(** The first loop of [compute_scores]: the [(score, flags)] of every
    listed account, from which [own_scores] and [flag_details] are read. *)
Definition scored (G : Graph) (dfs : DataFrames) : gmap string (Z * list Flag) :=
  let account_ids := account_ids_of dfs in
  let loop_accounts := _detect_loops G account_ids in
  let high_velocity_senders := high_velocity_senders (transactions dfs) in
  set_to_map
    (λ acc, (acc, own_score_flags G loop_accounts high_velocity_senders acc))
    account_ids.

Definition own_scores (G : Graph) (dfs : DataFrames) : gmap string Z :=
  fst <$> scored G dfs.

Definition flag_details (G : Graph) (dfs : DataFrames) : gmap string (list Flag) :=
  snd <$> scored G dfs.

(** The body of the second loop: the score record of [acc], or the
    [KeyError] of [G.nodes[acc]]. *)
Definition score_account (G : Graph) (dfs : DataFrames) (acc : string)
  : option ScoreRecord :=
  let account_ids := account_ids_of dfs in
  let nbrs := neighbours G account_ids acc in
  let contamination := contamination_of (own_scores G dfs) nbrs in
  let own := default 0 (own_scores G dfs !! acc) in
  let final := round1 (inject_Z own + contamination)%Q in
  let cl := classify final in
  nd ← nodes G !! acc;
  Some (mkScore acc
    (from_option a_holder "" nd)
    (from_option a_ring "" nd)
    (from_option a_city "" nd)
    (from_option a_lat 0%Q nd)
    (from_option a_lon 0%Q nd)
    (from_option a_type "" nd)
    own contamination final cl
    (default "" (assoc cl TIER_COLORS_HEX))
    (default [] (assoc cl TIER_COLORS_RGB))
    (default [] (flag_details G dfs !! acc))
    (bool_decide (acc ∈ _detect_loops G account_ids))).

Definition compute_scores (G : Graph) (dfs : DataFrames)
  : option (gmap string ScoreRecord) :=
  results ← mapM (λ acc, r ← score_account G dfs acc; Some (acc, r))
                 (elements (account_ids_of dfs));
  Some (list_to_map results).

(** [full_pipeline], up to the score table (arcs and ring clusters are
    rendering data derived from it). *)
Definition full_pipeline (dfs : DataFrames) : option (Graph * gmap string ScoreRecord) :=
  let G := build_graph dfs in
  scores ← compute_scores G dfs;
  Some (G, scores).

(* ===================================================================== *)
(** * Transaction enrichment (for the arc layer) *)
(* ===================================================================== *)

Record Arc := mkArc {
  arc_txn_id        : string;
  arc_sender        : string;
  arc_sender_name   : string;
  arc_receiver      : string;
  arc_receiver_name : string;
  arc_amount        : Z;
  arc_src_lat       : Q;
  arc_src_lon       : Q;
  arc_tgt_lat       : Q;
  arc_tgt_lon       : Q;
  arc_src_color     : list Z;
  arc_tgt_color     : list Z;
  arc_risk_tier     : string
}.

Definition risk_order : list string := ["CLEAN"; "WATCH"; "SUSPICIOUS"; "BLOCK"].

(** [l.index(c)]; [None] is the [ValueError] of a missing element. *)
Fixpoint index_of (c : string) (l : list string) : option nat :=
  match l with
  | [] => None
  | x :: l' => if String.eqb x c then Some 0%nat else S <$> index_of c l'
  end.

(** [max(a, b, key=lambda c: risk_order.index(c))]: the first of the two with
    the greatest index. *)
Definition higher_tier (a b : string) : option string :=
  ka ← index_of a risk_order;
  kb ← index_of b risk_order;
  Some (if (ka <? kb)%nat then b else a).

(** One iteration of the loop over the transactions: [Some None] is the
    [continue] of a transaction with an endpoint that has no score record. *)
Definition arc_of (scores : gmap string ScoreRecord) (row : Transaction)
  : option (option Arc) :=
  let s := sender row in
  let t := receiver row in
  match scores !! s, scores !! t with
  | Some src, Some tgt =>
      higher ← higher_tier (classification src) (classification tgt);
      Some (Some (mkArc (txn_id row) s (holder src) t (holder tgt) (amount row)
                    (lat src) (lon src) (lat tgt) (lon tgt)
                    (color_rgb src) (color_rgb tgt) higher))
  | _, _ => Some None
  end.

Definition get_transaction_arcs (scores : gmap string ScoreRecord)
    (dfs : DataFrames) : option (list Arc) :=
  arcs ← mapM (arc_of scores) (transactions dfs);
  Some (omap id arcs).

(* ===================================================================== *)
(** * Ring cluster centroids (for the highlight circles) *)
(* ===================================================================== *)

Record Cluster := mkCluster {
  c_ring   : string;
  c_lat    : Q;
  c_lon    : Q;
  c_radius : Z;
  c_color  : list Z;
  c_count  : nat;
  c_label  : string
}.

(** [ring_accounts[k].append(d)] on a [defaultdict(list)]: keys stay in the
    order they were first seen. *)
Fixpoint ring_append (k : string) (d : ScoreRecord)
    (gs : list (string * list ScoreRecord)) : list (string * list ScoreRecord) :=
  match gs with
  | [] => [(k, [d])]
  | (k', l) :: gs' =>
      if String.eqb k k' then (k', l ++ [d]) :: gs'
      else (k', l) :: ring_append k d gs'
  end.

(** The first loop of [get_ring_clusters]; [scores.items()] is the list of
    the table's entries. *)
Definition ring_accounts (scores : gmap string ScoreRecord)
  : list (string * list ScoreRecord) :=
  foldl (λ gs item,
           if bool_decide (classification item.2 ∈ ["BLOCK"; "SUSPICIOUS"])
           then ring_append (ring item.2) item.2 gs else gs)
        [] (map_to_list scores).

(** [statistics.mean]. *)
Definition mean (l : list Q) : Q :=
  (foldr Qplus 0 l / inject_Z (Z.of_nat (length l)))%Q.

(** [max] and [min] of the non-empty sequence [x :: l]. *)
Definition max_of (x : Q) (l : list Q) : Q := foldl Qmax x l.
Definition min_of (x : Q) (l : list Q) : Q := foldl Qmin x l.

(** [int(x)]: truncation towards zero. *)
Definition int_of (x : Q) : Z := if Qle_bool 0 x then Qfloor x else Qceiling x.

(** The body of the second loop: [None] is the [continue] of a ring with
    fewer than two members. *)
Definition cluster_of (ring : string) (members : list ScoreRecord) : option Cluster :=
  if (length members <? 2)%nat then None
  else
    match members with
    | [] => None
    | m0 :: rest =>
        let lats := lat <$> rest in
        let lons := lon <$> rest in
        let c_lat := mean (lat <$> members) in
        let c_lon := mean (lon <$> members) in
        let lat_spread := (max_of (lat m0) lats - min_of (lat m0) lats)%Q in
        let lon_spread := (max_of (lon m0) lons - min_of (lon m0) lons)%Q in
        let radius_deg := (Qmax lat_spread lon_spread / 2)%Q in
        let radius_m := Z.max (int_of (radius_deg * 111000 * (16 # 10))%Q) 1800 in
        let has_block :=
          existsb (λ m, String.eqb (classification m) "BLOCK") members in
        let color := if has_block then [255; 34; 68; 35] else [255; 140; 0; 35] in
        Some (mkCluster ring c_lat c_lon radius_m color (length members)
                ("Ring " +:+ ring))
    end.

Definition get_ring_clusters (scores : gmap string ScoreRecord) : list Cluster :=
  omap (λ g, cluster_of g.1 g.2) (ring_accounts scores).

(** [full_pipeline] with all five results. *)
Definition full_pipeline_outputs (dfs : DataFrames)
  : option (Graph * gmap string ScoreRecord * list Arc * list Cluster * DataFrames) :=
  let G := build_graph dfs in
  scores ← compute_scores G dfs;
  arcs ← get_transaction_arcs scores dfs;
  let clusters := get_ring_clusters scores in
  Some (G, scores, arcs, clusters, dfs).

(* ===================================================================== *)
(** * The phase-2 script's final score *)
(* ===================================================================== *)

(** [src/Risk_scorer.py] computes the final score from the contamination
    without rounding the contamination first. *)
Definition phase2_final_score (own_scores : gmap string Z) (nbrs : gset string)
    (own : Z) : Q :=
  let contamination :=
    if decide (nbrs = ∅) then 0%Q
    else (CONTAMINATION_WEIGHT
          * (inject_Z (sum_own own_scores nbrs)
             / inject_Z (Z.of_nat (size nbrs))))%Q in
  round1 (inject_Z own + contamination)%Q.

(** The [final_scores] and [classifications] dictionaries of
    [src/Risk_scorer.py], filled for every account of [own_scores]. *)
Definition phase2_final_scores (G : Graph) (dfs : DataFrames) : gmap string Q :=
  let own_scores := own_scores G dfs in
  map_imap (λ acc own,
              Some (phase2_final_score own_scores
                      (neighbours G (account_ids_of dfs) acc) own))
    own_scores.

Definition phase2_classifications (G : Graph) (dfs : DataFrames)
  : gmap string string :=
  classify <$> phase2_final_scores G dfs.

(** [sum(1 for c in classifications.values() if c == level)], an entry of the
    exported summary. *)
Definition phase2_summary_count (classifications : gmap string string)
    (level : string) : nat :=
  length (filter (λ c, c = level) (map_to_list classifications).*2).

Global Arguments classify : simpl never.
Global Arguments round1 : simpl never.
Global Arguments contamination_of : simpl never.
Global Arguments own_score_flags : simpl never.
Global Arguments _detect_loops : simpl never.
Global Arguments neighbours : simpl never.
Global Arguments own_scores : simpl never.
Global Arguments flag_details : simpl never.
Global Arguments score_account : simpl never.
Global Arguments build_graph : simpl never.

(* ===================================================================== *)
(** * Specification vocabulary *)
(* ===================================================================== *)

(** The edges the builder adds, as one list: used to describe its result. *)
Definition pair_edges (t : EdgeType) (p : string * string) : list Edge :=
  [mkEdge p.1 p.2 t None; mkEdge p.2 p.1 t None].

Definition shared_edges (t : EdgeType) (grps : list (string * list string))
  : list Edge :=
  g ← grps; p ← combinations2 g.2; pair_edges t p.

Definition txn_edge (row : Transaction) : Edge :=
  mkEdge (sender row) (receiver row) money_flow
    (Some (mkTxnAttrs (amount row) (timestamp row) (txn_id row))).

Definition built_edges (dfs : DataFrames) : list Edge :=
  shared_edges shared_ip (ip_grps dfs)
  ++ shared_edges shared_device (dev_grps dfs)
  ++ shared_edges shared_touchpoint (tp_grps dfs)
  ++ (txn_edge <$> transactions dfs).

Definition add_edges (es : list Edge) (G : Graph) : Graph :=
  foldl (λ G e, add_edge (e_src e) (e_dst e) (edge_type e) (e_attrs e) G) G es.

Definition account_nodes (rows : list Account) : Graph :=
  foldl (λ G row, add_node row G) empty_graph rows.

(** An edge touches a node that is its source or its destination. *)
Definition touches (e : Edge) (x : string) : Prop := e_src e = x ∨ e_dst e = x.

Global Instance touches_dec e x : Decision (touches e x).
Proof. unfold touches. apply _. Defined.

Definition is_shared (t : EdgeType) : Prop :=
  t ∈ [shared_ip; shared_device; shared_touchpoint].

(** [u -> v] is a money-flow edge of [G] between two accounts. *)
Definition money_edge (G : Graph) (account_ids : gset string) (u v : string) : Prop :=
  u ∈ account_ids ∧ v ∈ account_ids ∧
  ∃ e, e ∈ edges G ∧ e_src e = u ∧ e_dst e = v ∧ edge_type e = money_flow.

(** [walk R u l v]: the steps [u -> l_1 -> ... -> l_n -> v] are all in [R]. *)
Fixpoint walk (R : string → string → Prop) (u : string) (l : list string)
    (v : string) : Prop :=
  match l with
  | [] => R u v
  | x :: l' => R u x ∧ walk R x l' v
  end.

(** [c] lists the nodes of a directed cycle of [R]: pairwise distinct, each
    stepping to the next and the last one back to the first. *)
Definition directed_cycle (R : string → string → Prop) (c : list string) : Prop :=
  NoDup c ∧
  match c with
  | [] => False
  | s :: t => walk R s t s
  end.

(** The step relation of a digraph given by its edge list. *)
Definition edge_rel (E : list (string * string)) (u v : string) : Prop :=
  (u, v) ∈ E.

(** The rule table of the flag scorer, as the specification words it: each
    flag, with its weight, and the condition under which it fires for the
    account [acc]. *)
Definition flag_rules (G : Graph) (dfs : DataFrames) (acc : string)
  : list (Flag * Prop) :=
  [ (mkFlag "Shared IP Address" 25,
      ∃ e, e ∈ edges G ∧ edge_type e = shared_ip ∧ touches e acc);
    (mkFlag "Shared Device / IMEI" 30,
      ∃ e, e ∈ edges G ∧ edge_type e = shared_device ∧ touches e acc);
    (mkFlag "Shared ATM / Portal" 15,
      ∃ e, e ∈ edges G ∧ edge_type e = shared_touchpoint ∧ touches e acc);
    (mkFlag ("Received money (" +:+ pretty (length (in_money G acc)) +:+ " txn)") 20,
      ∃ e, e ∈ edges G ∧ edge_type e = money_flow ∧ e_dst e = acc);
    (mkFlag ("Sent money (" +:+ pretty (length (out_money G acc)) +:+ " txn)") 20,
      ∃ e, e ∈ edges G ∧ edge_type e = money_flow ∧ e_src e = acc);
    (mkFlag "Transaction Loop Detected" 40,
      ∃ c, directed_cycle (money_edge G (account_ids_of dfs)) c
           ∧ (3 ≤ length c)%nat ∧ acc ∈ c);
    (mkFlag "High Velocity Sending" 20,
      (3 ≤ send_count (transactions dfs) acc)%nat) ].

(** The account ids grouped under the key [k]. *)
Definition group_of (k : string) (gs : list (string * list string)) : list string :=
  default [] (assoc k gs).

(** The account ids of the rows whose key is [k], in row order. *)
Definition rows_of (k : string) (rows : list (string * string)) : list string :=
  (filter (λ r, r.1 = k) rows).*2.

(** [x] is recorded under a key of [rows] that at least two rows carry. *)
Definition shares_key (rows : list (string * string)) (x : string) : Prop :=
  ∃ k, (k, x) ∈ rows ∧ (2 ≤ length (rows_of k rows))%nat.

(** The seven tests of the own-score loop, in the order they are made, each
    with the flag it appends. *)
Definition flag_checks (G : Graph) (loop_accounts hv : gset string)
    (acc : string) : list (bool * Flag) :=
  [ (bool_decide (0 < etc G acc shared_ip)%nat, mkFlag "Shared IP Address" 25);
    (bool_decide (0 < etc G acc shared_device)%nat, mkFlag "Shared Device / IMEI" 30);
    (bool_decide (0 < etc G acc shared_touchpoint)%nat, mkFlag "Shared ATM / Portal" 15);
    (bool_decide (in_money G acc ≠ []),
      mkFlag ("Received money (" +:+ pretty (length (in_money G acc)) +:+ " txn)") 20);
    (bool_decide (out_money G acc ≠ []),
      mkFlag ("Sent money (" +:+ pretty (length (out_money G acc)) +:+ " txn)") 20);
    (bool_decide (acc ∈ loop_accounts), mkFlag "Transaction Loop Detected" 40);
    (bool_decide (acc ∈ hv), mkFlag "High Velocity Sending" 20) ].

Definition passed (checks : list (bool * Flag)) : list Flag :=
  snd <$> filter (λ p, p.1 = true) checks.

(** An account-type neighbour of [acc]: a listed account joined to [acc] by
    an edge of any type, in either direction. *)
Definition account_neighbour (G : Graph) (dfs : DataFrames) (acc n : string) : Prop :=
  n ∈ account_ids_of dfs ∧
  ∃ e, e ∈ edges G ∧ ((e_src e = acc ∧ e_dst e = n) ∨ (e_src e = n ∧ e_dst e = acc)).

Definition sum_weights (fl : list Flag) : Z := foldr Z.add 0 (weight <$> fl).

(** [x] is named by a record from which the builder makes an edge: it is the
    sender or the receiver of a transaction, or it is recorded under an IP
    address, a device (MAC or IMEI) or a touchpoint that at least two rows of
    that selection carry. *)
Definition edge_referenced (dfs : DataFrames) (x : string) : Prop :=
  (∃ t, t ∈ transactions dfs ∧ (sender t = x ∨ receiver t = x))
  ∨ shares_key (ip_rows dfs) x
  ∨ shares_key (dev_rows dfs) x
  ∨ shares_key (tp_rows dfs) x.

(** The same tables without the transactions whose sender is the receiver. *)
Definition without_self_transfers (dfs : DataFrames) : DataFrames :=
  mkDfs (accounts dfs) (identifiers dfs) (touchpoints dfs)
    (filter (λ t, sender t ≠ receiver t) (transactions dfs)).

Definition received_flag (G : Graph) (acc : string) : Flag :=
  mkFlag ("Received money (" +:+ pretty (length (in_money G acc)) +:+ " txn)") 20.

Definition sent_flag (G : Graph) (acc : string) : Flag :=
  mkFlag ("Sent money (" +:+ pretty (length (out_money G acc)) +:+ " txn)") 20.

(** Both endpoints of the transaction have a score record. *)
Definition scored_endpoints (scores : gmap string ScoreRecord) (t : Transaction)
  : Prop :=
  is_Some (scores !! sender t) ∧ is_Some (scores !! receiver t).

Global Instance scored_endpoints_dec scores t : Decision (scored_endpoints scores t).
Proof. unfold scored_endpoints. apply _. Defined.

(** [a] is the arc of the transaction [t]: the transaction's own columns, the
    holder, coordinates and colour of the two endpoint records, and as risk
    tier the classification of greater index in [risk_order], the sender's
    on a tie. *)
Definition arc_for (scores : gmap string ScoreRecord) (t : Transaction) (a : Arc)
  : Prop :=
  ∃ src tgt ks kt,
    scores !! sender t = Some src ∧ scores !! receiver t = Some tgt
    ∧ index_of (classification src) risk_order = Some ks
    ∧ index_of (classification tgt) risk_order = Some kt
    ∧ a = mkArc (txn_id t) (sender t) (holder src) (receiver t) (holder tgt)
            (amount t) (lat src) (lon src) (lat tgt) (lon tgt)
            (color_rgb src) (color_rgb tgt)
            (if (ks <? kt)%nat then classification tgt else classification src).

(** A record that counts for a ring cluster. *)
Definition risky (d : ScoreRecord) : Prop :=
  classification d ∈ ["BLOCK"; "SUSPICIOUS"].

Global Instance risky_dec d : Decision (risky d).
Proof. unfold risky. apply _. Defined.

(** The grouping loop of [get_ring_clusters] over a list of entries. *)
Definition ring_groups (items : list (string * ScoreRecord))
  : list (string * list ScoreRecord) :=
  foldl (λ gs item,
           if bool_decide (classification item.2 ∈ ["BLOCK"; "SUSPICIOUS"])
           then ring_append (ring item.2) item.2 gs else gs)
        [] items.

(** The risky records of ring [k] among the entries, in order. *)
Definition ring_members (k : string) (items : list (string * ScoreRecord))
  : list ScoreRecord :=
  filter (λ d, risky d ∧ ring d = k) items.*2.

(** Case analysis on the comparisons [classify] makes. *)
Ltac classify_cases :=
  unfold classify, THRESHOLDS, classify_in;
  repeat match goal with
  | |- context [Qle_bool ?a ?b] =>
      let H := fresh "Hle" in
      destruct (Qle_bool a b) eqn:H;
      [apply Qle_bool_iff in H
      |apply not_true_iff_false in H; rewrite Qle_bool_iff in H;
       apply Qnot_le_lt in H];
      cbn [andb]
  end;
  unfold inject_Z in *.

(* ===================================================================== *)
(** * Sample inputs *)
(* ===================================================================== *)

Definition acct (id : string) : Account := mkAccount id "UPI ID" "" "" "" 0 0.

(** [X] only receives money, from four senders; [S3] shares an IP address and
    [S4] a device with accounts that have nothing to do with [X]. *)
Definition ex_receiver : DataFrames :=
  mkDfs
    [acct "X"; acct "S1"; acct "S2"; acct "S3"; acct "S4"; acct "O1"; acct "O2"]
    [mkIdent "S3" "IP Address" "10.0.0.1"; mkIdent "O1" "IP Address" "10.0.0.1";
     mkIdent "S4" "IMEI" "IMEI-1";         mkIdent "O2" "IMEI" "IMEI-1"]
    []
    [mkTxn "T1" "S1" "X" 100 1; mkTxn "T2" "S2" "X" 100 2;
     mkTxn "T3" "S3" "X" 100 3; mkTxn "T4" "S4" "X" 100 4].

(** [A] fires all seven flags: it shares an IP address, a device and an ATM
    with [B], is on the cycle [A -> B -> C -> A] and sends three times. *)
Definition ex_all_flags : DataFrames :=
  mkDfs
    [acct "A"; acct "B"; acct "C"]
    [mkIdent "A" "IP Address" "10.0.0.1"; mkIdent "B" "IP Address" "10.0.0.1";
     mkIdent "A" "Device MAC" "MAC:01";   mkIdent "B" "Device MAC" "MAC:01"]
    [mkTouch "A" "ATM_1"; mkTouch "B" "ATM_1"]
    [mkTxn "T1" "A" "B" 100 1; mkTxn "T2" "B" "C" 100 2; mkTxn "T3" "C" "A" 100 3;
     mkTxn "T4" "A" "B" 100 4; mkTxn "T5" "A" "C" 100 5].

(** A transaction to an id that is not in the accounts table. *)
Definition ex_unknown_receiver : DataFrames :=
  mkDfs [acct "A"] [] [] [mkTxn "T1" "A" "GHOST" 100 1].

(** An identifier row of an unlisted id that shares its value with no row. *)
Definition ex_lone_identifier : DataFrames :=
  mkDfs [acct "A"] [mkIdent "GHOST" "IP Address" "9.9.9.9"] [] [].

(** A transaction whose sender is its receiver. *)
Definition ex_self_transfer : DataFrames :=
  mkDfs [acct "A"] [] [] [mkTxn "T1" "A" "A" 100 1].

(** Two accounts sending money back and forth. *)
Definition ex_back_and_forth : DataFrames :=
  mkDfs [acct "A"; acct "B"] [] []
    [mkTxn "T1" "A" "B" 100 1; mkTxn "T2" "B" "A" 90 2].

(** Three accounts on one IP address. *)
Definition ex_shared_ip : DataFrames :=
  mkDfs [acct "A"; acct "B"; acct "C"]
    [mkIdent "A" "IP Address" "10.0.0.1"; mkIdent "B" "IP Address" "10.0.0.1";
     mkIdent "C" "IP Address" "10.0.0.1"] [] [].

(** The rows of [get_dataframes] for the rings F (one-way transfers around a
    shared ATM), G (back-and-forth transfers on a shared IP address) and for
    the dormant account E1. *)
Definition rings_F_G_E1 : DataFrames :=
  mkDfs
    [mkAccount "ACC_E1" "Savings Account" "Priya Menon" "CLEAN" "Kolkata"
       (225726 # 10000) (883639 # 10000);
     mkAccount "ACC_F1" "Savings Account" "Amit Singh" "WATCH" "Chennai"
       (130900 # 10000) (802750 # 10000);
     mkAccount "ACC_F2" "UPI ID" "Deepa Thomas" "WATCH" "Chennai"
       (130827 # 10000) (802820 # 10000);
     mkAccount "ACC_F3" "Digital Wallet" "Kunal Mehta" "WATCH" "Chennai"
       (130760 # 10000) (802700 # 10000);
     mkAccount "ACC_G1" "Savings Account" "Sanjay Malhotra" "SUSPICIOUS" "Pune"
       (185204 # 10000) (738567 # 10000);
     mkAccount "ACC_G2" "UPI ID" "Lalitha Rao" "SUSPICIOUS" "Pune"
       (185260 # 10000) (738640 # 10000);
     mkAccount "ACC_G3" "Digital Wallet" "Mohan Das" "SUSPICIOUS" "Pune"
       (185150 # 10000) (738500 # 10000)]
    [mkIdent "ACC_E1" "IP Address" "203.0.113.10";
     mkIdent "ACC_F1" "IP Address" "198.51.100.1";
     mkIdent "ACC_F2" "IP Address" "198.51.100.2";
     mkIdent "ACC_F3" "IP Address" "198.51.100.3";
     mkIdent "ACC_G1" "IP Address" "10.2.0.99";
     mkIdent "ACC_G2" "IP Address" "10.2.0.99";
     mkIdent "ACC_G3" "IP Address" "10.2.0.99"]
    [mkTouch "ACC_F1" "ATM_CHN"; mkTouch "ACC_F2" "ATM_CHN";
     mkTouch "ACC_F3" "ATM_CHN"]
    [mkTxn "TXN_F1" "ACC_F1" "ACC_F2" 5000 20;
     mkTxn "TXN_F2" "ACC_F2" "ACC_F3" 4500 21;
     mkTxn "TXN_G1" "ACC_G1" "ACC_G2" 9000 30;
     mkTxn "TXN_G2" "ACC_G2" "ACC_G1" 8000 31;
     mkTxn "TXN_G3" "ACC_G2" "ACC_G3" 7500 32;
     mkTxn "TXN_G4" "ACC_G3" "ACC_G2" 7000 33].

(** No accounts at all, but an identifier row and a transaction. *)
Definition ex_no_accounts : DataFrames :=
  mkDfs [] [mkIdent "A" "IP Address" "10.0.0.1"] [] [mkTxn "T1" "A" "B" 100 1].

(** The score columns of the record of [acc] in the pipeline's table. *)
Definition scores_of (dfs : DataFrames) (acc : string)
  : option (Z * Q * Q * string * bool) :=
  res ← compute_scores (build_graph dfs) dfs;
  r ← res !! acc;
  Some (own_score r, contamination r, final_score r, classification r, in_loop r).

(* ===================================================================== *)
(** * The graph builder: what it adds *)
(* ===================================================================== *)

Lemma edges_add_edges es G : edges (add_edges es G) = edges G ++ es.
Proof.
  revert G. induction es as [|e es IH]; intros G; simpl.
  - by rewrite app_nil_r.
  - unfold add_edges in *. simpl. rewrite IH. simpl.
    rewrite <- app_assoc. by destruct e.
Qed.

Lemma add_edges_app es1 es2 G :
  add_edges (es1 ++ es2) G = add_edges es2 (add_edges es1 G).
Proof. unfold add_edges. by rewrite foldl_app. Qed.

Lemma add_shared_pairs t ps G :
  foldl (add_shared_pair t) G ps = add_edges (ps ≫= pair_edges t) G.
Proof.
  revert G. induction ps as [|p ps IH]; intros G; [done|].
  rewrite bind_cons, add_edges_app. simpl. by rewrite IH.
Qed.

Lemma add_shared_groups_edges t grps G :
  add_shared_groups t grps G = add_edges (shared_edges t grps) G.
Proof.
  unfold add_shared_groups, shared_edges.
  revert G. induction grps as [|g grps IH]; intros G; [done|].
  rewrite bind_cons, add_edges_app. simpl. by rewrite IH, add_shared_pairs.
Qed.

Lemma add_money_flows txns G :
  foldl add_money_flow G txns = add_edges (txn_edge <$> txns) G.
Proof.
  revert G. induction txns as [|r txns IH]; intros G; [done|].
  simpl. by rewrite IH.
Qed.

Lemma build_graph_add_edges dfs :
  build_graph dfs = add_edges (built_edges dfs) (account_nodes (accounts dfs)).
Proof.
  unfold build_graph, built_edges.
  rewrite !add_edges_app, add_money_flows, !add_shared_groups_edges. done.
Qed.

Lemma edges_account_nodes rows : edges (account_nodes rows) = [].
Proof.
  unfold account_nodes.
  assert (∀ G, edges (foldl (λ G row, add_node row G) G rows) = edges G) as H.
  { induction rows as [|r rows IH]; intros G; [done|]. simpl. by rewrite IH. }
  by rewrite H.
Qed.

Lemma edges_build_graph dfs : edges (build_graph dfs) = built_edges dfs.
Proof.
  by rewrite build_graph_add_edges, edges_add_edges, edges_account_nodes.
Qed.

Lemma elem_of_shared_edges t grps e :
  e ∈ shared_edges t grps ↔
  ∃ g a b, g ∈ grps ∧ (a, b) ∈ combinations2 g.2
           ∧ (e = mkEdge a b t None ∨ e = mkEdge b a t None).
Proof.
  unfold shared_edges. rewrite list_elem_of_bind. split.
  - intros (g & He & Hg). apply list_elem_of_bind in He as ([a b] & He & Hp).
    exists g, a, b. split; [done|]. split; [done|].
    unfold pair_edges in He. simpl in He. set_solver.
  - intros (g & a & b & Hg & Hp & He). exists g. split; [|done].
    apply list_elem_of_bind. exists (a, b). split; [|done].
    unfold pair_edges. simpl. set_solver.
Qed.

Lemma shared_edges_type t grps e : e ∈ shared_edges t grps → edge_type e = t.
Proof.
  rewrite elem_of_shared_edges. intros (g & a & b & _ & _ & [-> | ->]); done.
Qed.

Lemma shared_edges_flip t grps e :
  e ∈ shared_edges t grps →
  mkEdge (e_dst e) (e_src e) t None ∈ shared_edges t grps.
Proof.
  rewrite !elem_of_shared_edges. intros (g & a & b & Hg & Hp & He).
  exists g, a, b. destruct He as [-> | ->]; simpl; eauto.
Qed.

Lemma elem_of_built_edges dfs e :
  e ∈ built_edges dfs ↔
    e ∈ shared_edges shared_ip (ip_grps dfs)
    ∨ e ∈ shared_edges shared_device (dev_grps dfs)
    ∨ e ∈ shared_edges shared_touchpoint (tp_grps dfs)
    ∨ ∃ row, row ∈ transactions dfs ∧ e = txn_edge row.
Proof.
  unfold built_edges. rewrite !elem_of_app, list_elem_of_fmap. naive_solver.
Qed.


(** ** Grouping *)

Lemma ltb_lt a b : String.ltb a b = true ↔ String_as_OT.lt a b.
Proof.
  unfold String.ltb. rewrite <- String_as_OT.cmp_lt. unfold String_as_OT.cmp.
  destruct (String.compare a b); split; congruence.
Qed.

Lemma not_ltb_gt a b : a ≠ b → String.ltb a b = false → String_as_OT.lt b a.
Proof.
  unfold String.ltb. intros Hne H. apply String_as_OT.cmp_lt.
  unfold String_as_OT.cmp. rewrite String.compare_antisym.
  destruct (String.compare a b) eqn:Hc; [|done..].
  by apply String.compare_eq_iff in Hc.
Qed.

Lemma assoc_Some {V} k (d : list (string * V)) v : assoc k d = Some v → (k, v) ∈ d.
Proof.
  induction d as [|[k' v'] d IH]; simpl; [done|].
  destruct (String.eqb k k') eqn:Hk.
  - apply String.eqb_eq in Hk as ->. intros [= ->]. left.
  - intros H. right. by apply IH.
Qed.

Lemma assoc_None {V} k (d : list (string * V)) : k ∉ d.*1 → assoc k d = None.
Proof.
  induction d as [|[k' v'] d IH]; simpl; [done|]. intros Hk.
  apply not_elem_of_cons in Hk as [Hne Hk].
  apply String.eqb_neq in Hne as ->. by apply IH.
Qed.

Lemma assoc_sorted k (d : list (string * list string)) v :
  StronglySorted String_as_OT.lt d.*1 → (k, v) ∈ d → assoc k d = Some v.
Proof.
  induction d as [|[k' v'] d IH]; simpl; intros Hs Hin.
  - by apply elem_of_nil in Hin.
  - apply StronglySorted_inv in Hs as [Hs Hall].
    apply elem_of_cons in Hin as [[= <- <-]|Hin].
    + by rewrite String.eqb_refl.
    + destruct (String.eqb k k') eqn:Hk; [|by apply IH].
      apply String.eqb_eq in Hk as ->. exfalso.
      rewrite List.Forall_forall in Hall.
      apply (String_as_OT.lt_not_eq k' k'); [|done].
      apply Hall, list_elem_of_In, list_elem_of_fmap. by exists (k', v).
Qed.

Lemma group_insert_keys k a gs x :
  x ∈ (group_insert k a gs).*1 ↔ x = k ∨ x ∈ gs.*1.
Proof.
  induction gs as [|[k' l] gs IH]; simpl.
  - set_solver.
  - destruct (String.eqb k k') eqn:Hk.
    + apply String.eqb_eq in Hk as ->. set_solver.
    + destruct (String.ltb k k'); simpl; rewrite ?fmap_cons; set_solver.
Qed.

Lemma group_insert_sorted k a gs :
  StronglySorted String_as_OT.lt gs.*1 →
  StronglySorted String_as_OT.lt (group_insert k a gs).*1.
Proof.
  induction gs as [|[k' l] gs IH]; simpl; intros Hs.
  - repeat constructor.
  - pose proof Hs as Hs'. apply StronglySorted_inv in Hs' as [Hs' Hall].
    destruct (String.eqb k k') eqn:Hk; [done|].
    apply String.eqb_neq in Hk.
    destruct (String.ltb k k') eqn:Hlt.
    + apply ltb_lt in Hlt. constructor; [done|].
      constructor; [done|]. eapply List.Forall_impl; [|exact Hall].
      intros y Hy. by eapply String_as_OT.lt_trans.
    + apply not_ltb_gt in Hlt; [|done]. simpl. constructor; [by apply IH|].
      apply List.Forall_forall. intros y Hy.
      apply list_elem_of_In, group_insert_keys in Hy as [->|Hy]; [done|].
      rewrite List.Forall_forall in Hall. by apply Hall, list_elem_of_In.
Qed.

Lemma group_of_insert k a gs k0 :
  StronglySorted String_as_OT.lt gs.*1 →
  group_of k0 (group_insert k a gs) =
  group_of k0 gs ++ (if decide (k0 = k) then [a] else []).
Proof.
  unfold group_of. induction gs as [|[k' l] gs IH]; simpl; intros Hs.
  - destruct (decide (k0 = k)) as [->|Hne].
    + by rewrite String.eqb_refl.
    + by apply String.eqb_neq in Hne as ->.
  - apply StronglySorted_inv in Hs as [Hs Hall].
    destruct (String.eqb k k') eqn:Hk.
    + apply String.eqb_eq in Hk as ->. simpl.
      destruct (decide (k0 = k')) as [->|Hne].
      * by rewrite String.eqb_refl.
      * apply String.eqb_neq in Hne as ->. by rewrite app_nil_r.
    + apply String.eqb_neq in Hk. destruct (String.ltb k k') eqn:Hlt; simpl.
      * apply ltb_lt in Hlt. destruct (decide (k0 = k)) as [->|Hne].
        -- rewrite String.eqb_refl. apply String.eqb_neq in Hk as ->.
           rewrite assoc_None; [done|]. intros Hin.
           rewrite List.Forall_forall in Hall.
           apply list_elem_of_In, Hall in Hin.
           apply (String_as_OT.lt_not_eq k k); [|done].
           by eapply String_as_OT.lt_trans.
        -- apply String.eqb_neq in Hne as ->. by rewrite app_nil_r.
      * destruct (String.eqb k0 k') eqn:Hk0; [|by apply IH].
        apply String.eqb_eq in Hk0 as ->.
        rewrite decide_False by done. by rewrite app_nil_r.
Qed.

Lemma groupby_snoc rows r :
  groupby (rows ++ [r]) = group_insert r.1 r.2 (groupby rows).
Proof. unfold groupby. by rewrite foldl_app. Qed.

Lemma groupby_sorted rows : StronglySorted String_as_OT.lt (groupby rows).*1.
Proof.
  induction rows as [|r rows IH] using rev_ind; [constructor|].
  rewrite groupby_snoc. by apply group_insert_sorted.
Qed.

(** The group of a key holds the account ids of the rows with that key. *)
Lemma group_of_groupby rows k : group_of k (groupby rows) = rows_of k rows.
Proof.
  unfold rows_of. induction rows as [|r rows IH] using rev_ind; [done|].
  rewrite groupby_snoc, group_of_insert by apply groupby_sorted.
  rewrite IH, filter_app, fmap_app. f_equal.
  rewrite filter_cons, filter_nil. destruct r as [k' a]; simpl.
  destruct (decide (k = k')), (decide (k' = k)); done || congruence.
Qed.

Lemma groupby_nonempty rows k l : (k, l) ∈ groupby rows → l ≠ [].
Proof.
  revert k l. induction rows as [|r rows IH] using rev_ind; intros k l.
  - by intros ?%elem_of_nil.
  - rewrite groupby_snoc. generalize (groupby rows) IH. clear IH.
    intros gs. induction gs as [|[k' l'] gs IHgs]; simpl; intros IH.
    + intros [= -> ->]%list_elem_of_singleton. done.
    + destruct (String.eqb r.1 k').
      * intros [[= -> ->]|Hin]%elem_of_cons; [by destruct l'|].
        eapply IH. by right.
      * destruct (String.ltb r.1 k').
        -- intros [[= -> ->]|Hin]%elem_of_cons; [done|]. by eapply IH.
        -- intros [[= -> ->]|Hin]%elem_of_cons; [eapply IH; left|].
           apply IHgs; [|done]. intros k0 l0 H0. eapply IH. by right.
Qed.

Lemma elem_of_groupby rows k l :
  (k, l) ∈ groupby rows ↔ l = rows_of k rows ∧ l ≠ [].
Proof.
  split.
  - intros Hin. split; [|by eapply groupby_nonempty].
    rewrite <- group_of_groupby. unfold group_of.
    by rewrite (assoc_sorted _ _ _ (groupby_sorted rows) Hin).
  - intros [-> Hne]. rewrite <- group_of_groupby in *. unfold group_of in *.
    destruct (assoc k (groupby rows)) as [l|] eqn:Ha; [|done].
    by apply assoc_Some.
Qed.

(** ** Pairs *)

Lemma elem_of_combinations2 l a b :
  (a, b) ∈ combinations2 l → a ∈ l ∧ b ∈ l ∧ (2 ≤ length l)%nat.
Proof.
  induction l as [|x l IH]; simpl; [by intros ?%elem_of_nil|].
  rewrite elem_of_app, list_elem_of_fmap. intros [(y & [= -> ->] & Hy)|Hin].
  - split; [left|]. split; [by right|]. destruct l; [by apply elem_of_nil in Hy|].
    simpl. lia.
  - apply IH in Hin as (? & ? & ?). split; [by right|]. split; [by right|]. lia.
Qed.

Lemma combinations2_partner l x :
  x ∈ l → (2 ≤ length l)%nat →
  ∃ y, (x, y) ∈ combinations2 l ∨ (y, x) ∈ combinations2 l.
Proof.
  destruct l as [|a l]; [by intros ?%elem_of_nil|]. simpl.
  intros [->|Hx]%elem_of_cons Hlen.
  - destruct l as [|y l]; [simpl in Hlen; lia|]. exists y. left.
    apply elem_of_app. left. apply list_elem_of_fmap. exists y. split; [done|left].
  - exists a. right. apply elem_of_app. left. apply list_elem_of_fmap. by exists x.
Qed.

(** An edge of a grouped selection touches [x] exactly when [x] is recorded
    under a key that at least two of its rows carry. *)
Lemma shared_edges_touch t rows x :
  (∃ e, e ∈ shared_edges t (groupby rows) ∧ touches e x) ↔ shares_key rows x.
Proof.
  unfold shares_key. split.
  - intros (e & He & Hx). apply elem_of_shared_edges in He
      as ([k l] & a & b & Hg & Hp & He).
    apply elem_of_groupby in Hg as [-> _]. simpl in Hp.
    apply elem_of_combinations2 in Hp as (Ha & Hb & Hlen).
    assert (x ∈ rows_of k rows) as Hin.
    { unfold touches in Hx. destruct He as [-> | ->]; simpl in Hx;
        destruct Hx as [<-|<-]; done. }
    exists k. split; [|done]. unfold rows_of in Hin.
    apply list_elem_of_fmap in Hin as ([k' x'] & -> & Hin).
    apply list_elem_of_filter in Hin as [Hk Hin]. simpl in *. by subst.
  - intros (k & Hin & Hlen).
    assert (x ∈ rows_of k rows) as Hx.
    { unfold rows_of. apply list_elem_of_fmap. exists (k, x). split; [done|].
      by apply list_elem_of_filter. }
    destruct (combinations2_partner _ _ Hx Hlen) as (y & Hy).
    assert ((k, rows_of k rows) ∈ groupby rows) as Hg.
    { apply elem_of_groupby. split; [done|]. intros Hnil.
      rewrite Hnil in Hx. by apply elem_of_nil in Hx. }
    destruct Hy as [Hy|Hy].
    + exists (mkEdge x y t None). split; [|by left].
      apply elem_of_shared_edges. exists (k, rows_of k rows), x, y. eauto.
    + exists (mkEdge x y t None). split; [|by left].
      apply elem_of_shared_edges. exists (k, rows_of k rows), y, x. eauto.
Qed.

Lemma touch_node_lookup n ns x :
  touch_node n ns !! x =
  match ns !! x with
  | Some a => Some a
  | None => if decide (x = n) then Some None else None
  end.
Proof.
  unfold touch_node. destruct (ns !! n) as [a|] eqn:Hn.
  - destruct (ns !! x) eqn:Hx; [done|]. case_decide; [congruence|done].
  - case_decide as Hd.
    + subst. by rewrite lookup_insert_eq, Hn.
    + rewrite lookup_insert_ne by done. by destruct (ns !! x).
Qed.

Lemma nodes_add_edge u v t d G x :
  nodes (add_edge u v t d G) !! x =
  match nodes G !! x with
  | Some a => Some a
  | None => if decide (x = u ∨ x = v) then Some None else None
  end.
Proof.
  unfold add_edge. simpl. rewrite !touch_node_lookup.
  destruct (nodes G !! x); [done|]. repeat case_decide; naive_solver.
Qed.

Lemma nodes_add_edges es G x :
  nodes (add_edges es G) !! x =
  match nodes G !! x with
  | Some a => Some a
  | None => if decide (Exists (λ e, touches e x) es) then Some None else None
  end.
Proof.
  revert G. induction es as [|e es IH]; intros G.
  - simpl. destruct (nodes G !! x); [done|].
    destruct (decide (Exists (λ e, touches e x) [])) as [H|H];
      [by apply Exists_nil in H|done].
  - unfold add_edges in *. simpl. rewrite IH, nodes_add_edge.
    destruct (nodes G !! x); [done|].
    destruct (decide (x = e_src e ∨ x = e_dst e)) as [Hx|Hx];
      destruct (decide (Exists (λ e0, touches e0 x) es)) as [Hes|Hes];
      destruct (decide (Exists (λ e0, touches e0 x) (e :: es))) as [H|H];
      try done; exfalso; rewrite Exists_cons in H; unfold touches in H;
      naive_solver.
Qed.

Lemma account_nodes_snoc rows r :
  account_nodes (rows ++ [r]) = add_node r (account_nodes rows).
Proof. unfold account_nodes. by rewrite foldl_app. Qed.

Lemma nodes_account_nodes rows x :
  match nodes (account_nodes rows) !! x with
  | Some nd => ∃ row, nd = Some row ∧ row ∈ rows ∧ a_account_id row = x
  | None => x ∉ (a_account_id <$> rows)
  end.
Proof.
  induction rows as [|r rows IH] using rev_ind.
  - simpl. rewrite lookup_empty. apply not_elem_of_nil.
  - rewrite account_nodes_snoc. unfold add_node. simpl.
    destruct (decide (a_account_id r = x)) as [<-|Hne].
    + rewrite lookup_insert_eq. exists r. set_solver.
    + rewrite lookup_insert_ne by done.
      destruct (nodes (account_nodes rows) !! x) as [nd|].
      * destruct IH as (row & ? & ? & ?). exists row. set_solver.
      * rewrite fmap_app. set_solver.
Qed.

(** Every listed account is a node of the built graph and keeps the
    attributes of one of its rows. *)
Lemma nodes_build_graph_account dfs x :
  x ∈ account_ids_of dfs →
  ∃ row, row ∈ accounts dfs ∧ a_account_id row = x
         ∧ nodes (build_graph dfs) !! x = Some (Some row).
Proof.
  intros Hx. unfold account_ids_of in Hx. rewrite elem_of_list_to_set in Hx.
  rewrite build_graph_add_edges, nodes_add_edges.
  pose proof (nodes_account_nodes (accounts dfs) x) as H.
  destruct (nodes (account_nodes (accounts dfs)) !! x) as [nd|]; [|done].
  destruct H as (row & -> & ? & ?). eauto.
Qed.

(** A node that is not a listed account exists exactly when an edge touches
    it, and then carries no attributes. *)
Lemma nodes_build_graph_other dfs x :
  x ∉ account_ids_of dfs →
  nodes (build_graph dfs) !! x =
  if decide (Exists (λ e, touches e x) (edges (build_graph dfs)))
  then Some None else None.
Proof.
  intros Hx. unfold account_ids_of in Hx. rewrite elem_of_list_to_set in Hx.
  rewrite edges_build_graph.
  rewrite build_graph_add_edges, nodes_add_edges.
  pose proof (nodes_account_nodes (accounts dfs) x) as H.
  destruct (nodes (account_nodes (accounts dfs)) !! x) as [nd|]; [|done].
  destruct H as (row & -> & ? & ?). set_solver.
Qed.


(* ===================================================================== *)
(** * The loop detector: soundness and completeness of the enumeration *)
(* ===================================================================== *)

Section walks.

Context (R : string → string → Prop).

Lemma walk_app u l1 x l2 v :
  walk R u (l1 ++ x :: l2) v ↔ walk R u l1 x ∧ walk R x l2 v.
Proof.
  revert u. induction l1 as [|y l1 IH]; intros u; simpl; [done|].
  rewrite IH. tauto.
Qed.

Lemma walk_ext (R' : string → string → Prop) u l v :
  (∀ a b, R a b ↔ R' a b) → walk R u l v ↔ walk R' u l v.
Proof.
  intros HR. revert u. induction l as [|y l IH]; intros u; simpl; [done|].
  by rewrite IH, HR.
Qed.

(** Every node on a closed walk has a successor. *)
Lemma walk_successor u l v x :
  walk R u l v → x ∈ u :: l → ∃ y, R x y.
Proof.
  revert u. induction l as [|y l IH]; intros u; simpl.
  - intros H Hx. apply list_elem_of_singleton in Hx as ->. eauto.
  - intros [H1 H2] [->|Hx]%elem_of_cons; eauto.
Qed.

(** A cycle can be listed from any of its nodes. *)
Lemma directed_cycle_rotate l1 s l2 :
  directed_cycle R (l1 ++ s :: l2) → directed_cycle R (s :: l2 ++ l1).
Proof.
  intros [Hnd Hw]. split.
  - assert ((s :: l2 ++ l1) ≡ₚ l1 ++ s :: l2) as Hperm.
    { rewrite (Permutation_app_comm l1). done. }
    by rewrite Hperm.
  - destruct l1 as [|a l1]; simpl in *.
    + by rewrite app_nil_r.
    + apply walk_app in Hw as [H1 H2]. apply walk_app. done.
Qed.

End walks.

Section enumeration.

Context (E : list (string * string)).

Lemma cycles_through_spec fuel : ∀ s avail cur path c,
  (length avail ≤ fuel)%nat → NoDup avail →
  c ∈ cycles_through fuel E s avail cur path ↔
  ∃ t, c = path ++ t ∧ NoDup t ∧ (∀ x, x ∈ t → x ∈ avail)
       ∧ walk (edge_rel E) cur t s.
Proof.
  assert (∀ (s cur : string) (path c : list string),
    c ∈ (if bool_decide ((cur, s) ∈ E) then [path] else []) ↔
    c = path ∧ edge_rel E cur s) as Hclose.
  { intros s cur path c. unfold edge_rel. case_bool_decide; set_solver. }
  induction fuel as [|fuel IH]; intros s avail cur path c Hlen Hnd; simpl.
  - destruct avail; [|simpl in Hlen; lia]. rewrite app_nil_r, Hclose. split.
    + intros [-> HE]. exists []. rewrite app_nil_r.
      split; [done|]. split; [constructor|]. split; [|done].
      intros x Hx. by apply elem_of_nil in Hx.
    + intros (t & -> & _ & Hsub & Hw). destruct t as [|x t].
      * by rewrite app_nil_r.
      * exfalso. eapply elem_of_nil, Hsub. left.
  - rewrite elem_of_app, Hclose, list_elem_of_bind. split.
    + intros [[-> HE] | (x & Hc & Hx)].
      * exists []. rewrite app_nil_r.
        split; [done|]. split; [constructor|]. split; [|done].
        intros x Hx. by apply elem_of_nil in Hx.
      * case_bool_decide as HE; [|by apply elem_of_nil in Hc].
        apply IH in Hc as (t & -> & Hndt & Hsub & Hw).
        -- exists (x :: t). rewrite <- app_assoc. split; [done|].
           split; [|split; [|done]].
           ++ apply NoDup_cons. split; [|done]. intros Hxt.
              apply Hsub, list_elem_of_filter in Hxt. naive_solver.
           ++ intros y [->|Hy]%elem_of_cons; [done|].
              by apply Hsub, list_elem_of_filter in Hy as [_ ?].
        -- assert (¬ x ≠ x) as Hxx by naive_solver.
           pose proof (length_filter_lt (λ y, y ≠ x) avail x Hx Hxx). lia.
        -- by apply NoDup_filter.
    + intros (t & -> & Hndt & Hsub & Hw). destruct t as [|x t].
      * left. by rewrite app_nil_r.
      * right. destruct Hw as [HE Hw]. apply NoDup_cons in Hndt as [Hx Hndt].
        assert (x ∈ avail) as Hxa by (apply Hsub; left).
        exists x. split; [|done].
        rewrite bool_decide_eq_true_2 by done. apply IH.
        -- assert (¬ x ≠ x) as Hxx by naive_solver.
           pose proof (length_filter_lt (λ y, y ≠ x) avail x Hxa Hxx). lia.
        -- by apply NoDup_filter.
        -- exists t. rewrite <- app_assoc. split; [done|]. split; [done|].
           split; [|done]. intros y Hy. apply list_elem_of_filter.
           split; [by intros ->|]. apply Hsub. by right.
Qed.

Lemma simple_cycles_from_sound ns c :
  NoDup ns → c ∈ simple_cycles_from E ns → directed_cycle (edge_rel E) c.
Proof.
  induction ns as [|s rest IH]; simpl; intros Hnd Hc.
  - by apply elem_of_nil in Hc.
  - apply NoDup_cons in Hnd as [Hs Hnd].
    apply elem_of_app in Hc as [Hc|Hc]; [|by apply IH].
    apply cycles_through_spec in Hc as (t & -> & Hndt & Hsub & Hw); [|done..].
    split; [|done]. simpl. apply NoDup_cons. split; [|done].
    intros Hst. by apply Hsub in Hst.
Qed.

Lemma simple_cycles_from_complete ns : ∀ c,
  NoDup ns → directed_cycle (edge_rel E) c → (∀ x, x ∈ c → x ∈ ns) →
  ∃ c', c' ∈ simple_cycles_from E ns ∧ c' ≡ₚ c.
Proof.
  induction ns as [|s rest IH]; intros c Hnd Hcyc Hsub.
  - destruct c as [|x c]; [by destruct Hcyc|].
    exfalso. eapply elem_of_nil, Hsub. left.
  - apply NoDup_cons in Hnd as [Hs Hnd]. simpl.
    destruct (decide (s ∈ c)) as [Hsc|Hsc].
    + apply list_elem_of_split in Hsc as (l1 & l2 & ->).
      assert ((s :: l2 ++ l1) ≡ₚ l1 ++ s :: l2) as Hperm.
      { rewrite (Permutation_app_comm l1). done. }
      apply directed_cycle_rotate in Hcyc as [Hndc Hw].
      apply NoDup_cons in Hndc as [Hst Hndt].
      exists (s :: l2 ++ l1). split; [|done].
      apply elem_of_app. left. apply cycles_through_spec; [done..|].
      exists (l2 ++ l1). split; [done|]. split; [done|]. split; [|done].
      intros x Hx. assert (x ∈ s :: rest) as Hxr.
      { apply Hsub. rewrite <- Hperm. by right. }
      apply elem_of_cons in Hxr as [->|?]; done.
    + destruct (IH c Hnd Hcyc) as (c' & Hc' & Hp).
      * intros x Hx. specialize (Hsub x Hx).
        apply elem_of_cons in Hsub as [->|?]; done.
      * exists c'. split; [|done]. apply elem_of_app. by right.
Qed.

Lemma graph_nodes_cycle c x :
  directed_cycle (edge_rel E) c → x ∈ c → x ∈ graph_nodes E.
Proof.
  intros [_ Hw] Hx. destruct c as [|s t]; [done|].
  destruct (walk_successor _ _ _ _ _ Hw Hx) as (y & Hy).
  unfold graph_nodes. apply elem_of_remove_dups, list_elem_of_bind.
  exists (x, y). split; [|done]. simpl. left.
Qed.

(** The enumeration lists directed cycles only, and lists every directed
    cycle, possibly from another of its nodes. *)
Lemma simple_cycles_sound c :
  c ∈ simple_cycles E → directed_cycle (edge_rel E) c.
Proof. apply simple_cycles_from_sound, NoDup_remove_dups. Qed.

Lemma simple_cycles_complete c :
  directed_cycle (edge_rel E) c → ∃ c', c' ∈ simple_cycles E ∧ c' ≡ₚ c.
Proof.
  intros Hc. apply simple_cycles_from_complete; [apply NoDup_remove_dups|done|].
  intros x. by apply graph_nodes_cycle.
Qed.

End enumeration.

Lemma elem_of_money_graph G ids u v :
  edge_rel (money_graph G ids) u v ↔ money_edge G ids u v.
Proof.
  unfold edge_rel, money_graph, money_edge. rewrite list_elem_of_fmap. split.
  - intros (e & [= -> ->] & He). apply list_elem_of_filter in He. naive_solver.
  - intros (Hu & Hv & e & He & <- & <- & Ht). exists e. split; [done|].
    apply list_elem_of_filter. done.
Qed.

Lemma directed_cycle_ext R R' c :
  (∀ a b, R a b ↔ R' a b) → directed_cycle R c ↔ directed_cycle R' c.
Proof.
  intros HR. unfold directed_cycle. destruct c as [|s t]; [done|].
  by rewrite (walk_ext R R' s t s HR).
Qed.

(** Loop membership is membership in a directed money-flow cycle of at least
    three accounts. *)
Lemma detect_loops_spec G ids a :
  a ∈ _detect_loops G ids ↔
  ∃ c, directed_cycle (money_edge G ids) c ∧ (3 ≤ length c)%nat ∧ a ∈ c.
Proof.
  unfold _detect_loops. rewrite elem_of_list_to_set, list_elem_of_bind. split.
  - intros (c & Ha & Hc). case_bool_decide as Hlen; [|by apply elem_of_nil in Ha].
    exists c. split; [|done].
    eapply directed_cycle_ext; [|by apply simple_cycles_sound].
    intros u v. symmetry. apply elem_of_money_graph.
  - intros (c & Hc & Hlen & Ha).
    destruct (simple_cycles_complete (money_graph G ids) c) as (c' & Hc' & Hp).
    { eapply directed_cycle_ext; [|exact Hc]. apply elem_of_money_graph. }
    exists c'. split; [|done].
    rewrite bool_decide_eq_true_2; [by rewrite Hp|].
    by rewrite (Permutation_length Hp).
Qed.

(* ===================================================================== *)
(** * The scorer: the score table *)
(* ===================================================================== *)

Lemma scored_lookup G dfs acc :
  scored G dfs !! acc =
  if decide (acc ∈ account_ids_of dfs)
  then Some (own_score_flags G (_detect_loops G (account_ids_of dfs))
               (high_velocity_senders (transactions dfs)) acc)
  else None.
Proof.
  unfold scored.
  set (f := λ acc : string, (acc, own_score_flags G
    (_detect_loops G (account_ids_of dfs))
    (high_velocity_senders (transactions dfs)) acc)).
  assert (∀ x, (set_to_map f (account_ids_of dfs) : gmap string (Z * list Flag))
                 !! acc = Some x ↔
               ∃ y, y ∈ account_ids_of dfs ∧ f y = (acc, x)) as H.
  { intros x. apply lookup_set_to_map. intros y y' _ _ Hy. exact Hy. }
  destruct (decide (acc ∈ account_ids_of dfs)) as [Hin|Hin].
  - apply H. exists acc. done.
  - apply eq_None_not_Some. intros [x Hx]. apply H in Hx as (y & Hy & Hf).
    unfold f in Hf. congruence.
Qed.

Lemma own_scores_lookup G dfs acc :
  own_scores G dfs !! acc =
  if decide (acc ∈ account_ids_of dfs)
  then Some (own_score_flags G (_detect_loops G (account_ids_of dfs))
               (high_velocity_senders (transactions dfs)) acc).1
  else None.
Proof.
  unfold own_scores. rewrite lookup_fmap, scored_lookup. by case_decide.
Qed.

Lemma flag_details_lookup G dfs acc :
  flag_details G dfs !! acc =
  if decide (acc ∈ account_ids_of dfs)
  then Some (own_score_flags G (_detect_loops G (account_ids_of dfs))
               (high_velocity_senders (transactions dfs)) acc).2
  else None.
Proof.
  unfold flag_details. rewrite lookup_fmap, scored_lookup. by case_decide.
Qed.

Lemma score_account_Some G dfs acc r :
  score_account G dfs acc = Some r → account_id r = acc.
Proof.
  unfold score_account. destruct (nodes G !! acc) as [nd|]; [|done].
  unfold mbind, option_bind. intros H.
  apply (f_equal (from_option account_id "")) in H. symmetry. exact H.
Qed.

Lemma scored_rows G dfs (l : list string) (results : list (string * ScoreRecord)) :
  Forall2 (λ acc y, (r ← score_account G dfs acc; Some (acc, r)) = Some y)
          l results →
  results.*1 = l ∧ ∀ p, p ∈ results → score_account G dfs p.1 = Some p.2.
Proof.
  induction 1 as [|x y l k Hxy _ [IH1 IH2]].
  - split; [done|]. intros p Hp. by apply elem_of_nil in Hp.
  - destruct (score_account G dfs x) as [r|] eqn:Hx; [|done].
    unfold mbind, option_bind in Hxy. injection Hxy as <-.
    split; [by rewrite fmap_cons, IH1|].
    intros p [->|Hp]%elem_of_cons; [done|by apply IH2].
Qed.

(** The table has one record per listed account: the one the loop body
    computes for it. *)
Lemma compute_scores_lookup G dfs res acc :
  compute_scores G dfs = Some res →
  res !! acc =
  if decide (acc ∈ account_ids_of dfs) then score_account G dfs acc else None.
Proof.
  unfold compute_scores. intros H.
  destruct (mapM _ _) as [results|] eqn:Hm; [|done].
  unfold mbind, option_bind in H. injection H as <-.
  apply mapM_Some, scored_rows in Hm as [Hkeys Hres].
  assert (NoDup results.*1) as Hnd by (rewrite Hkeys; apply NoDup_elements).
  destruct (list_to_map results !! acc) as [r|] eqn:Hl.
  - apply elem_of_list_to_map in Hl; [|done].
    rewrite decide_True.
    + symmetry. apply (Hres _ Hl).
    + apply elem_of_elements. rewrite <- Hkeys.
      apply list_elem_of_fmap. exists (acc, r). done.
  - case_decide as Hin; [|done].
    apply not_elem_of_list_to_map in Hl. exfalso. apply Hl.
    rewrite Hkeys. by apply elem_of_elements.
Qed.

Lemma compute_scores_is_Some G dfs :
  (∀ acc, acc ∈ account_ids_of dfs → is_Some (nodes G !! acc)) →
  is_Some (compute_scores G dfs).
Proof.
  intros Hn. unfold compute_scores.
  destruct (mapM _ _) as [results|] eqn:Hm; [by eexists|].
  exfalso. apply mapM_None in Hm. apply Exists_exists in Hm as (acc & Hacc & Hf).
  apply elem_of_elements, Hn in Hacc as [nd Hnd].
  unfold score_account in Hf. rewrite Hnd in Hf. done.
Qed.

(** On the graph built from the same tables the scorer never fails. *)
Lemma compute_scores_build_graph dfs :
  is_Some (compute_scores (build_graph dfs) dfs).
Proof.
  apply compute_scores_is_Some. intros acc Hacc.
  destruct (nodes_build_graph_account dfs acc Hacc) as (row & _ & _ & ->).
  by eexists.
Qed.

Lemma dom_compute_scores G dfs res :
  compute_scores G dfs = Some res → dom res = account_ids_of dfs.
Proof.
  unfold compute_scores. intros H.
  destruct (mapM _ _) as [results|] eqn:Hm; [|done].
  unfold mbind, option_bind in H. injection H as <-.
  apply mapM_Some, scored_rows in Hm as [Hkeys _].
  rewrite dom_list_to_map_L, Hkeys. apply set_eq. intros x.
  by rewrite elem_of_list_to_set, elem_of_elements.
Qed.

(* ===================================================================== *)
(** * The scorer: flags and own score *)
(* ===================================================================== *)

Lemma own_score_flags_checks G L hv acc :
  own_score_flags G L hv acc =
  (sum_weights (passed (flag_checks G L hv acc)), passed (flag_checks G L hv acc)).
Proof.
  unfold own_score_flags, flag_checks, passed, sum_weights.
  repeat case_bool_decide; reflexivity.
Qed.

Lemma sum_weights_app l k : sum_weights (l ++ k) = sum_weights l + sum_weights k.
Proof.
  unfold sum_weights. rewrite fmap_app.
  induction (weight <$> l) as [|w ws IH]; simpl; [done|lia].
Qed.

Lemma elem_of_passed checks f :
  f ∈ passed checks ↔ (true, f) ∈ checks.
Proof.
  unfold passed. rewrite list_elem_of_fmap. split.
  - intros ([b f'] & -> & Hp). apply list_elem_of_filter in Hp as [Hb Hp].
    simpl in *. by subst.
  - intros Hp. exists (true, f). split; [done|].
    by apply list_elem_of_filter.
Qed.


Lemma passed_bounds checks :
  Forall (λ p, 0 ≤ weight p.2) checks →
  0 ≤ sum_weights (passed checks) ≤ sum_weights checks.*2.
Proof.
  unfold passed, sum_weights.
  induction 1 as [|[b f] checks Hf _ IH]; [simpl; lia|].
  rewrite filter_cons. cbn [fst snd] in *.
  destruct (decide (b = true)); rewrite !fmap_cons; cbn [foldr snd]; lia.
Qed.

Lemma length_pos_elem_of {A} (l : list A) : (0 < length l)%nat ↔ ∃ x, x ∈ l.
Proof.
  destruct l as [|x l]; simpl.
  - split; [lia|]. intros [x Hx]. by apply elem_of_nil in Hx.
  - split; [|lia]. intros _. exists x. left.
Qed.

Lemma etc_pos G acc t :
  (0 < etc G acc t)%nat ↔
  ∃ e, e ∈ edges G ∧ edge_type e = t ∧ touches e acc.
Proof.
  unfold etc, out_edges, in_edges, touches. split.
  - intros H.
    assert ((0 < length (filter (λ e, edge_type e = t)
                          (filter (λ e, e_src e = acc) (edges G))))%nat
            ∨ (0 < length (filter (λ e, edge_type e = t)
                          (filter (λ e, e_dst e = acc) (edges G))))%nat)
      as [H1|H1] by lia;
      apply length_pos_elem_of in H1 as (e & He);
      rewrite !list_elem_of_filter in He; exists e; tauto.
  - intros (e & He & Ht & [Hs|Hd]).
    + assert (0 < length (filter (λ e, edge_type e = t)
                           (filter (λ e, e_src e = acc) (edges G))))%nat; [|lia].
      apply length_pos_elem_of. exists e. by rewrite !list_elem_of_filter.
    + assert (0 < length (filter (λ e, edge_type e = t)
                           (filter (λ e, e_dst e = acc) (edges G))))%nat; [|lia].
      apply length_pos_elem_of. exists e. by rewrite !list_elem_of_filter.
Qed.

Lemma nonempty_elem_of {A} (l : list A) : l ≠ [] ↔ ∃ x, x ∈ l.
Proof.
  destruct l as [|x l].
  - split; [done|]. intros [x Hx]. by apply elem_of_nil in Hx.
  - split; [|done]. intros _. exists x. left.
Qed.

Lemma in_money_nonempty G acc :
  in_money G acc ≠ [] ↔
  ∃ e, e ∈ edges G ∧ edge_type e = money_flow ∧ e_dst e = acc.
Proof.
  rewrite nonempty_elem_of. unfold in_money, in_edges. split.
  - intros (u & Hu). apply list_elem_of_fmap in Hu as (e & -> & He).
    rewrite !list_elem_of_filter in He. exists e. tauto.
  - intros (e & He & Ht & Hd). exists (e_src e).
    apply list_elem_of_fmap. exists e. by rewrite !list_elem_of_filter.
Qed.

Lemma out_money_nonempty G acc :
  out_money G acc ≠ [] ↔
  ∃ e, e ∈ edges G ∧ edge_type e = money_flow ∧ e_src e = acc.
Proof.
  rewrite nonempty_elem_of. unfold out_money, out_edges. split.
  - intros (u & Hu). apply list_elem_of_fmap in Hu as (e & -> & He).
    rewrite !list_elem_of_filter in He. exists e. tauto.
  - intros (e & He & Ht & Hd). exists (e_dst e).
    apply list_elem_of_fmap. exists e. by rewrite !list_elem_of_filter.
Qed.

Lemma elem_of_high_velocity_senders txns acc :
  acc ∈ high_velocity_senders txns ↔ (3 ≤ send_count txns acc)%nat.
Proof.
  unfold high_velocity_senders.
  rewrite elem_of_list_to_set, list_elem_of_filter. split; [tauto|].
  intros H. split; [done|].
  assert (0 < length (filter (λ t, sender t = acc) txns))%nat as Hpos
    by (unfold send_count in H; lia).
  apply length_pos_elem_of in Hpos as (t & Ht).
  apply list_elem_of_filter in Ht as [<- Ht]. by apply list_elem_of_fmap_2.
Qed.

(** The tests of the loop are the conditions of the rule table, flag by flag. *)
Lemma flag_checks_rules G dfs acc :
  Forall2 (λ chk rule, chk.2 = rule.1 ∧ (chk.1 = true ↔ rule.2))
    (flag_checks G (_detect_loops G (account_ids_of dfs))
       (high_velocity_senders (transactions dfs)) acc)
    (flag_rules G dfs acc).
Proof.
  unfold flag_checks, flag_rules.
  repeat (constructor;
    [split; [reflexivity|cbn [fst snd]; rewrite bool_decide_eq_true]|]);
    first [ apply etc_pos | apply in_money_nonempty | apply out_money_nonempty
          | apply detect_loops_spec | apply elem_of_high_velocity_senders
          | apply Forall2_nil_2 ].
Qed.

Lemma Forall2_checks_rules (checks : list (bool * Flag)) (rules : list (Flag * Prop)) f :
  Forall2 (λ chk rule, chk.2 = rule.1 ∧ (chk.1 = true ↔ rule.2)) checks rules →
  (true, f) ∈ checks ↔ ∃ P : Prop, (f, P) ∈ rules ∧ P.
Proof.
  induction 1 as [|[b g] [g' P] checks rules [Hg HP] _ IH]; simpl in *.
  - split; [by intros ?%elem_of_nil|]. by intros (P & ?%elem_of_nil & _).
  - subst g'. rewrite elem_of_cons, IH. split.
    + intros [[= <- <-]|(Q & HQ & Hq)].
      * exists P. split; [left|tauto].
      * exists Q. split; [by right|done].
    + intros (Q & [[= -> <-]|HQ]%elem_of_cons & Hq).
      * left. f_equal. symmetry. tauto.
      * right. eauto.
Qed.


Lemma score_account_fields G dfs acc r :
  acc ∈ account_ids_of dfs → score_account G dfs acc = Some r →
  flags r = passed (flag_checks G (_detect_loops G (account_ids_of dfs))
                      (high_velocity_senders (transactions dfs)) acc)
  ∧ own_score r = sum_weights (flags r)
  ∧ contamination r
    = contamination_of (own_scores G dfs) (neighbours G (account_ids_of dfs) acc)
  ∧ final_score r = round1 (inject_Z (own_score r) + contamination r)%Q
  ∧ classification r = classify (final_score r)
  ∧ in_loop r = bool_decide (acc ∈ _detect_loops G (account_ids_of dfs)).
Proof.
  intros Hin. unfold score_account.
  rewrite own_scores_lookup, flag_details_lookup, !decide_True by done.
  rewrite own_score_flags_checks.
  destruct (nodes G !! acc) as [nd|]; [|done].
  unfold mbind, option_bind. intros H.
  pose proof (f_equal (from_option flags []) H) as Hfl.
  pose proof (f_equal (from_option own_score 0) H) as Hown.
  pose proof (f_equal (from_option contamination 0%Q) H) as Hcon.
  pose proof (f_equal (from_option final_score 0%Q) H) as Hfin.
  pose proof (f_equal (from_option classification "") H) as Hcl.
  pose proof (f_equal (from_option in_loop false) H) as Hlp.
  clear H.
  cbn [from_option flags default snd] in Hfl.
  cbn [from_option own_score default fst] in Hown.
  cbn [from_option contamination] in Hcon.
  cbn [from_option final_score default fst] in Hfin.
  cbn [from_option classification default fst] in Hcl.
  cbn [from_option in_loop] in Hlp.
  rewrite <- Hfl, <- Hown, <- Hcon, <- Hfin, <- Hcl, <- Hlp.
  repeat split; reflexivity.
Qed.

(** The records of a score table are those of its listed accounts. *)
Lemma compute_scores_record G dfs res acc r :
  compute_scores G dfs = Some res → res !! acc = Some r →
  acc ∈ account_ids_of dfs ∧ score_account G dfs acc = Some r.
Proof.
  intros Hres Hr. rewrite (compute_scores_lookup _ _ _ acc Hres) in Hr.
  by case_decide.
Qed.

Lemma flag_checks_weights G L hv acc :
  Forall (λ p, 15 ≤ weight p.2) (flag_checks G L hv acc)
  ∧ sum_weights (flag_checks G L hv acc).*2 = 170.
Proof.
  split; [|reflexivity].
  unfold flag_checks. repeat (constructor; [cbn [snd weight]; lia|]). constructor.
Qed.

(** A fired flag alone is worth at least 15 points. *)
Lemma passed_lower_bound checks f :
  Forall (λ p, 15 ≤ weight p.2) checks → (true, f) ∈ checks →
  15 ≤ sum_weights (passed checks).
Proof.
  intros Hall Hin. apply list_elem_of_split in Hin as (l1 & l2 & ->).
  apply Forall_app in Hall as [H1 H2]. apply Forall_cons in H2 as [Hf H2].
  unfold passed. rewrite filter_app, filter_cons, decide_True by done.
  rewrite fmap_app, fmap_cons, sum_weights_app.
  assert (∀ l, Forall (λ p : bool * Flag, 15 ≤ weight p.2) l →
               0 ≤ sum_weights (passed l)) as Hpos.
  { intros l Hl. apply passed_bounds. eapply Forall_impl; [exact Hl|].
    intros p Hp. simpl in Hp. lia. }
  pose proof (Hpos _ H1). pose proof (Hpos _ H2).
  unfold passed, sum_weights in *. rewrite fmap_cons. cbn [foldr snd] in *. lia.
Qed.

(** The classifier on the scores that lie strictly between two of the
    integer ranges of [THRESHOLDS]: none of the four tests passes. *)
Lemma classify_between_ranges (q : Q) :
  (30 < q < 31 ∨ 60 < q < 61 ∨ 90 < q < 91)%Q → classify q = "BLOCK".
Proof.
  intros H. unfold classify, THRESHOLDS, classify_in.
  assert (∀ a b : Q, (a < b)%Q → Qle_bool b a = false) as Hlt.
  { intros a b Hab. destruct (Qle_bool b a) eqn:Hle; [|done].
    apply Qle_bool_iff in Hle. exfalso. by apply (Qlt_not_le a b). }
  assert (∀ lo hi : Z, (q < inject_Z lo)%Q ∨ (inject_Z hi < q)%Q →
    Qle_bool (inject_Z lo) q && Qle_bool q (inject_Z hi) = false) as Hout.
  { intros lo hi [Hl|Hh].
    - by rewrite (Hlt _ _ Hl).
    - rewrite (Hlt _ _ Hh). by destruct (Qle_bool (inject_Z lo) q). }
  rewrite (Hout 0 30), (Hout 31 60), (Hout 61 90), (Hout 91 9999); [done|..];
    unfold inject_Z; destruct H as [H|[H|H]];
    first [left; lra | right; lra].
Qed.

(** The reported flags are the rules whose condition holds, each once. *)
Lemma fired_flags_rules G dfs acc r f :
  acc ∈ account_ids_of dfs → score_account G dfs acc = Some r →
  f ∈ flags r ↔ ∃ P : Prop, (f, P) ∈ flag_rules G dfs acc ∧ P.
Proof.
  intros Hin Hs.
  destruct (score_account_fields _ _ _ _ Hin Hs) as (-> & _).
  rewrite elem_of_passed. apply Forall2_checks_rules, flag_checks_rules.
Qed.


(** ** Which ids become nodes *)

Lemma touched_iff_referenced dfs x :
  (∃ e, e ∈ edges (build_graph dfs) ∧ touches e x) ↔ edge_referenced dfs x.
Proof.
  rewrite edges_build_graph. unfold edge_referenced.
  rewrite <- (shared_edges_touch shared_ip (ip_rows dfs)),
    <- (shared_edges_touch shared_device (dev_rows dfs)),
    <- (shared_edges_touch shared_touchpoint (tp_rows dfs)).
  fold (ip_grps dfs) (dev_grps dfs) (tp_grps dfs).
  split.
  - intros (e & He & Hx). apply elem_of_built_edges in He
      as [He|[He|[He|(row & Hrow & ->)]]]; [eauto 8..|].
    left. exists row. split; [done|]. exact Hx.
  - intros [(row & Hrow & Hx)|[(e & He & Hx)|[(e & He & Hx)|(e & He & Hx)]]].
    + exists (txn_edge row). split; [|exact Hx].
      apply elem_of_built_edges. eauto 8.
    + exists e. split; [|done]. apply elem_of_built_edges. eauto.
    + exists e. split; [|done]. apply elem_of_built_edges. eauto.
    + exists e. split; [|done]. apply elem_of_built_edges. eauto.
Qed.

(** An id that is not a listed account is a node exactly when a record from
    which an edge is made names it; the node then has no attributes. *)
Lemma unlisted_node dfs x :
  x ∉ account_ids_of dfs →
  (edge_referenced dfs x → nodes (build_graph dfs) !! x = Some None)
  ∧ (is_Some (nodes (build_graph dfs) !! x) → edge_referenced dfs x).
Proof.
  intros Hx. rewrite (nodes_build_graph_other _ _ Hx).
  rewrite <- touched_iff_referenced.
  destruct (decide (Exists (λ e, touches e x) (edges (build_graph dfs))))
    as [He|He]; rewrite Exists_exists in He; split; done.
Qed.

(* ===================================================================== *)
(** * The scenarios of the reference data *)
(* ===================================================================== *)

(** An account with no shared identifier, touchpoint or transaction. *)
Example scenario_isolated_account :
  scores_of rings_F_G_E1 "ACC_E1" = Some (0, 0%Q, 0%Q, "CLEAN", false).
Proof. vm_compute. reflexivity. Qed.

(** One-way transfers F1 -> F2 -> F3 around a shared ATM: the ends score
    15 + 20, the middle account 15 + 20 + 20. *)
Example scenario_circumstantial_ring :
  scores_of rings_F_G_E1 "ACC_F1" = Some (35, 27 # 2, 97 # 2, "WATCH", false)
  ∧ scores_of rings_F_G_E1 "ACC_F2" = Some (55, 21 # 2, 131 # 2, "SUSPICIOUS", false)
  ∧ scores_of rings_F_G_E1 "ACC_F3" = Some (35, 27 # 2, 97 # 2, "WATCH", false).
Proof. repeat split; vm_compute; reflexivity. Qed.

(** Transfers G1 <-> G2 <-> G3 on a shared IP address and no closing edge:
    65 for all three, no loop, contamination 19.5, final score 84.5. *)
Example scenario_bidirectional_no_loop :
  scores_of rings_F_G_E1 "ACC_G1" = Some (65, 39 # 2, 169 # 2, "SUSPICIOUS", false)
  ∧ scores_of rings_F_G_E1 "ACC_G2" = Some (65, 39 # 2, 169 # 2, "SUSPICIOUS", false)
  ∧ scores_of rings_F_G_E1 "ACC_G3" = Some (65, 39 # 2, 169 # 2, "SUSPICIOUS", false).
Proof. repeat split; vm_compute; reflexivity. Qed.

(* ===================================================================== *)
(** * Classifier, own score, loop membership, reciprocity, table keys *)
(* ===================================================================== *)

(** C1 (tier classifier, boundary behaviour).  The classifier does not send
    30.1 to WATCH: a score strictly between two of the integer ranges passes
    none of the four tests and falls through to the final [return "BLOCK"].
    The pipeline reaches such a score: in [ex_receiver] the account [X] has
    own score 20, contamination 10.1, final score 30.1 and is classified
    BLOCK, while 30 is CLEAN and 31 is WATCH. *)
Theorem classify_gap_falls_to_block :
  classify (301 # 10) = "BLOCK"
  ∧ classify 30 = "CLEAN" ∧ classify 31 = "WATCH"
  ∧ classify 90 = "SUSPICIOUS" ∧ classify (901 # 10) = "BLOCK"
  ∧ ∃ res r,
      compute_scores (build_graph ex_receiver) ex_receiver = Some res
      ∧ res !! "X" = Some r
      ∧ own_score r = 20 ∧ contamination r = 101 # 10
      ∧ final_score r = 301 # 10 ∧ classification r = "BLOCK".
Proof.
  repeat (split; [vm_compute; reflexivity|]).
  eexists _, _. split; [vm_compute; reflexivity|].
  split; [vm_compute; reflexivity|]. repeat split.
Qed.

(** C2, the claim as stated fails: where all seven flags fire the own score
    is 170, the sum of the seven weights, not 190. *)
Lemma own_score_all_flags_not_190 :
  foldr Z.add 0 FLAG_WEIGHTS.*2 ≠ 190
  ∧ ∃ res r,
      compute_scores (build_graph ex_all_flags) ex_all_flags = Some res
      ∧ res !! "A" = Some r
      ∧ length (flags r) = 7%nat ∧ own_score r ≠ 190.
Proof.
  split; [by vm_compute|].
  eexists _, _. split; [vm_compute; reflexivity|].
  split; [vm_compute; reflexivity|]. split; [reflexivity|]. by vm_compute.
Qed.

(** C2 (amended).  For every account of a score table, the own score lies
    between 0 and 170; 170 is the sum of the seven flag weights, and it is
    attained by an account on which all seven flags fire. *)
Theorem own_score_range :
  (∀ G dfs res acc r,
     compute_scores G dfs = Some res → res !! acc = Some r →
     0 ≤ own_score r ≤ 170)
  ∧ foldr Z.add 0 FLAG_WEIGHTS.*2 = 170
  ∧ ∃ res r,
      compute_scores (build_graph ex_all_flags) ex_all_flags = Some res
      ∧ res !! "A" = Some r
      ∧ length (flags r) = 7%nat ∧ own_score r = 170.
Proof.
  split; [|split; [reflexivity|]].
  - intros G dfs res acc r Hres Hr.
    destruct (compute_scores_record _ _ _ _ _ Hres Hr) as [Hin Hs].
    destruct (score_account_fields _ _ _ _ Hin Hs) as (Hfl & -> & _).
    rewrite Hfl.
    destruct (flag_checks_weights G (_detect_loops G (account_ids_of dfs))
                (high_velocity_senders (transactions dfs)) acc) as [Hall <-].
    apply passed_bounds. eapply Forall_impl; [exact Hall|].
    intros p Hp. simpl in Hp. lia.
  - eexists _, _. split; [vm_compute; reflexivity|].
    split; [vm_compute; reflexivity|]. split; reflexivity.
Qed.

Lemma own_score_range_witness :
  ∃ res r,
    compute_scores (build_graph ex_receiver) ex_receiver = Some res
    ∧ res !! "S4" = Some r ∧ 0 ≤ own_score r ≤ 170.
Proof.
  eexists _, _. split; [vm_compute; reflexivity|].
  split; [vm_compute; reflexivity|].
  eapply (proj1 own_score_range (build_graph ex_receiver) ex_receiver _ "S4");
    vm_compute; reflexivity.
Defined.

(** C5 (loop detector).  For every graph and account set, an account is in
    the loop set exactly when it lies on a directed cycle of money-flow edges
    between accounts with at least three distinct nodes; when all the
    money flows between accounts run between two accounts [A] and [B] only
    (a back-and-forth), the loop set is empty; and the [in_loop] field of a
    score record is membership in that set. *)
Theorem loop_membership_spec G (account_ids : gset string) :
  (∀ a, a ∈ _detect_loops G account_ids ↔
        ∃ c, directed_cycle (money_edge G account_ids) c
             ∧ (3 ≤ length c)%nat ∧ a ∈ c)
  ∧ (∀ A B, (∀ u v, money_edge G account_ids u v → u ∈ [A; B] ∧ v ∈ [A; B]) →
            _detect_loops G account_ids = ∅)
  ∧ (∀ dfs res acc r,
       account_ids = account_ids_of dfs →
       compute_scores G dfs = Some res → res !! acc = Some r →
       (in_loop r = true ↔ acc ∈ _detect_loops G account_ids)).
Proof.
  split; [intros a; apply detect_loops_spec|]. split.
  - intros A B HAB. apply set_eq. intros a. split; [|by intros ?%not_elem_of_empty].
    intros (c & [Hnd Hw] & Hlen & _)%detect_loops_spec. exfalso.
    destruct c as [|s t]; [done|].
    assert (∀ x, x ∈ s :: t → x ∈ [A; B]) as Hsub.
    { intros x Hx. destruct (walk_successor _ _ _ _ _ Hw Hx) as (y & Hy).
      by apply HAB in Hy as [? _]. }
    apply NoDup_submseteq in Hsub; [|done].
    apply submseteq_length in Hsub. simpl in *. lia.
  - intros dfs res acc r -> Hres Hr.
    destruct (compute_scores_record _ _ _ _ _ Hres Hr) as [Hin Hs].
    destruct (score_account_fields _ _ _ _ Hin Hs) as (_ & _ & _ & _ & _ & ->).
    apply bool_decide_eq_true.
Qed.

Lemma loop_membership_spec_witness :
  _detect_loops (build_graph ex_back_and_forth)
    (account_ids_of ex_back_and_forth) = ∅.
Proof.
  apply (proj1 (proj2 (loop_membership_spec (build_graph ex_back_and_forth)
           (account_ids_of ex_back_and_forth))) "A" "B").
  intros u v (_ & _ & e & He & <- & <- & _).
  vm_compute in He.
  apply elem_of_cons in He as [->|He]; [split; [left|right; left]|].
  apply list_elem_of_singleton in He as ->. split; [right; left|left].
Defined.



(** C7 (graph builder).  In every graph the builder produces, an edge of type
    [shared_ip], [shared_device] or [shared_touchpoint] from [A] to [B] comes
    with an edge of the same type from [B] to [A]. *)
Theorem shared_edges_reciprocated dfs e :
  e ∈ edges (build_graph dfs) → is_shared (edge_type e) →
  ∃ e', e' ∈ edges (build_graph dfs)
        ∧ e_src e' = e_dst e ∧ e_dst e' = e_src e
        ∧ edge_type e' = edge_type e.
Proof.
  rewrite edges_build_graph. intros He Ht.
  apply elem_of_built_edges in He as [He|[He|[He|(row & _ & ->)]]].
  - exists (mkEdge (e_dst e) (e_src e) shared_ip None).
    rewrite (shared_edges_type _ _ _ He). split; [|done].
    apply elem_of_built_edges. left. by apply shared_edges_flip.
  - exists (mkEdge (e_dst e) (e_src e) shared_device None).
    rewrite (shared_edges_type _ _ _ He). split; [|done].
    apply elem_of_built_edges. right. left. by apply shared_edges_flip.
  - exists (mkEdge (e_dst e) (e_src e) shared_touchpoint None).
    rewrite (shared_edges_type _ _ _ He). split; [|done].
    apply elem_of_built_edges. right. right. left. by apply shared_edges_flip.
  - exfalso. unfold is_shared in Ht. simpl in Ht. set_solver.
Qed.

Lemma shared_edges_reciprocated_witness :
  ∃ e', e' ∈ edges (build_graph ex_shared_ip)
        ∧ e_src e' = "C" ∧ e_dst e' = "A" ∧ edge_type e' = shared_ip.
Proof.
  apply (shared_edges_reciprocated ex_shared_ip (mkEdge "A" "C" shared_ip None)).
  - vm_compute. do 2 right. left.
  - left.
Defined.

(** C3, the claim as stated fails: a transaction to an id that is not in the
    accounts table raises nothing; the pipeline returns its graph and score
    table, and the id is a node of the graph, without attributes, at the end
    of a money-flow edge. *)
Lemma unknown_receiver_becomes_node :
  ("GHOST" ∉ account_ids_of ex_unknown_receiver)
  ∧ ∃ res,
      full_pipeline ex_unknown_receiver
        = Some (build_graph ex_unknown_receiver, res)
      ∧ nodes (build_graph ex_unknown_receiver) !! "GHOST" = Some None
      ∧ mkEdge "A" "GHOST" money_flow (Some (mkTxnAttrs 100 1 "T1"))
          ∈ edges (build_graph ex_unknown_receiver).
Proof.
  split; [by vm_compute|].
  eexists. split; [vm_compute; reflexivity|].
  split; [vm_compute; reflexivity|]. vm_compute. left.
Qed.

(** C3 (amended).  The pipeline makes no referential-integrity check and never
    fails: for every input it returns the graph and a score table.  Every
    transaction contributes its money-flow edge; an id absent from the
    accounts table that is the sender or receiver of a transaction, or is
    recorded under an IP address, device or touchpoint carried by at least two
    rows, silently becomes a graph node without attributes and gets no score
    record. *)
Theorem unknown_ids_not_rejected dfs :
  ∃ res,
    full_pipeline dfs = Some (build_graph dfs, res)
    ∧ (∀ t, t ∈ transactions dfs → txn_edge t ∈ edges (build_graph dfs))
    ∧ ∀ x, x ∉ account_ids_of dfs → edge_referenced dfs x →
           nodes (build_graph dfs) !! x = Some None ∧ res !! x = None.
Proof.
  destruct (compute_scores_build_graph dfs) as [res Hres].
  exists res. split; [|split].
  - unfold full_pipeline. by rewrite Hres.
  - intros t Ht. rewrite edges_build_graph. apply elem_of_built_edges.
    do 3 right. by exists t.
  - intros x Hx Href. split; [by apply unlisted_node|].
    rewrite (compute_scores_lookup _ _ _ x Hres). by rewrite decide_False.
Qed.

Lemma unknown_ids_not_rejected_witness :
  nodes (build_graph ex_unknown_receiver) !! "GHOST" = Some None.
Proof.
  destruct (unknown_ids_not_rejected ex_unknown_receiver) as (res & _ & _ & H).
  apply (H "GHOST").
  - by vm_compute.
  - left. exists (mkTxn "T1" "A" "GHOST" 100 1). split; [left|by right].
Defined.

(** C10, the claim as stated fails: an id that appears only in an identifier
    row sharing its value with no other row does not become a graph node. *)
Lemma lone_identifier_is_no_node :
  "GHOST" ∈ (i_account_id <$> identifiers ex_lone_identifier)
  ∧ ("GHOST" ∉ account_ids_of ex_lone_identifier)
  ∧ nodes (build_graph ex_lone_identifier) !! "GHOST" = None.
Proof.
  split; [left|]. split; [by vm_compute|]. vm_compute. reflexivity.
Qed.

(** C10 (amended).  For every input the scorer returns a table whose key set
    is exactly the set of the listed account ids, one record per listed
    account.  An id that is not listed never receives a score record; it
    becomes a graph node exactly when it is the sender or receiver of a
    transaction, or is recorded under an IP address, a device or a touchpoint
    that at least two rows carry. *)
Theorem score_table_keys dfs :
  ∃ res,
    compute_scores (build_graph dfs) dfs = Some res
    ∧ dom res = account_ids_of dfs
    ∧ (∀ acc, acc ∈ account_ids_of dfs →
              ∃ r, res !! acc = Some r ∧ account_id r = acc)
    ∧ ∀ x, x ∉ account_ids_of dfs →
           res !! x = None
           ∧ (x ∈ dom (nodes (build_graph dfs)) ↔ edge_referenced dfs x).
Proof.
  destruct (compute_scores_build_graph dfs) as [res Hres].
  exists res. split; [done|].
  pose proof (dom_compute_scores _ _ _ Hres) as Hdom.
  split; [done|]. split.
  - intros acc Hacc. rewrite <- Hdom in Hacc.
    apply elem_of_dom in Hacc as [r Hr]. exists r. split; [done|].
    destruct (compute_scores_record _ _ _ _ _ Hres Hr) as [_ Hs].
    by eapply score_account_Some.
  - intros x Hx. split.
    + rewrite (compute_scores_lookup _ _ _ x Hres). by rewrite decide_False.
    + destruct (unlisted_node dfs x Hx) as [H1 H2]. rewrite elem_of_dom. split.
      * apply H2.
      * intros Href. rewrite (H1 Href). by eexists.
Qed.

Lemma score_table_keys_witness :
  "GHOST" ∈ dom (nodes (build_graph ex_unknown_receiver)).
Proof.
  destruct (score_table_keys ex_unknown_receiver) as (res & _ & _ & _ & H).
  apply (H "GHOST").
  - by vm_compute.
  - left. exists (mkTxn "T1" "A" "GHOST" 100 1). split; [left|by right].
Defined.

(* ===================================================================== *)
(** * Self-transfers *)
(* ===================================================================== *)

Lemma walk_mono (R R' : string → string → Prop) u l v :
  (∀ a b, R a b → R' a b) → walk R u l v → walk R' u l v.
Proof.
  intros HR. revert u. induction l as [|x l IH]; intros u; simpl; [apply HR|].
  intros [H1 H2]. split; [by apply HR|by apply IH].
Qed.

(** On a walk through pairwise distinct nodes that does not end where its
    last node is, no step is a self-loop. *)
Lemma walk_proper_steps (R : string → string → Prop) u l v :
  NoDup (u :: l) → last (u :: l) ≠ Some v → walk R u l v →
  walk (λ a b, R a b ∧ a ≠ b) u l v.
Proof.
  revert u. induction l as [|x l IH]; intros u Hnd Hlast; simpl.
  - intros HR. split; [done|]. intros ->. by apply Hlast.
  - intros [H1 H2]. apply NoDup_cons in Hnd as [Hu Hnd]. split.
    + split; [done|]. intros ->. apply Hu. left.
    + apply IH; [done| |done]. by rewrite last_cons_cons in Hlast.
Qed.

Lemma directed_cycle_proper_steps (R : string → string → Prop) c :
  directed_cycle R c → (2 ≤ length c)%nat →
  directed_cycle (λ a b, R a b ∧ a ≠ b) c.
Proof.
  intros [Hnd Hw] Hlen. split; [done|].
  destruct c as [|s t]; [done|]. apply walk_proper_steps; [done| |done].
  intros (l' & Hl')%last_Some. apply NoDup_cons in Hnd as [Hs _].
  destruct l' as [|y l']; simplify_eq/=; [lia|].
  apply Hs. apply elem_of_app. right. left.
Qed.

Lemma directed_cycle_mono (R R' : string → string → Prop) c :
  (∀ a b, R a b → R' a b) → directed_cycle R c → directed_cycle R' c.
Proof.
  intros HR [Hnd Hw]. split; [done|]. destruct c as [|s t]; [done|].
  by eapply walk_mono.
Qed.

(** The loop set depends only on the money-flow edges between two different
    accounts. *)
Lemma detect_loops_proper_edges G G' ids :
  (∀ u v, u ≠ v → money_edge G ids u v → money_edge G' ids u v) →
  _detect_loops G ids ⊆ _detect_loops G' ids.
Proof.
  intros HG a (c & Hc & Hlen & Ha)%detect_loops_spec.
  apply detect_loops_spec. exists c. split; [|done].
  apply directed_cycle_proper_steps in Hc; [|lia].
  eapply directed_cycle_mono; [|exact Hc]. intros u v [Huv Hne]. by apply HG.
Qed.

Lemma money_edge_build_graph dfs u v :
  money_edge (build_graph dfs) (account_ids_of dfs) u v ↔
  u ∈ account_ids_of dfs ∧ v ∈ account_ids_of dfs
  ∧ ∃ t, t ∈ transactions dfs ∧ sender t = u ∧ receiver t = v.
Proof.
  unfold money_edge. rewrite edges_build_graph. split.
  - intros (Hu & Hv & e & He & <- & <- & Ht). split; [done|]. split; [done|].
    apply elem_of_built_edges in He as [He|[He|[He|(row & Hrow & ->)]]];
      [apply shared_edges_type in He; congruence..|].
    by exists row.
  - intros (Hu & Hv & t & Ht & <- & <-). split; [done|]. split; [done|].
    exists (txn_edge t). split; [|done]. apply elem_of_built_edges.
    do 3 right. by exists t.
Qed.

Lemma detect_loops_without_self_transfers dfs :
  _detect_loops (build_graph dfs) (account_ids_of dfs)
  = _detect_loops (build_graph (without_self_transfers dfs)) (account_ids_of dfs).
Proof.
  apply set_eq. intros a. split; apply detect_loops_proper_edges; intros u v Hne.
  - intros (Hu & Hv & t & Ht & <- & <-)%money_edge_build_graph.
    apply (money_edge_build_graph (without_self_transfers dfs)).
    split; [done|]. split; [done|]. exists t. split; [|done].
    simpl. by apply list_elem_of_filter.
  - intros (Hu & Hv & t & Ht & <- & <-)%(money_edge_build_graph
      (without_self_transfers dfs)).
    apply money_edge_build_graph. split; [done|]. split; [done|].
    exists t. split; [|done]. simpl in Ht. by apply list_elem_of_filter in Ht as [_ ?].
Qed.

(** C9, the claim as stated fails: a transaction from [A] to [A] is accepted;
    it puts a money-flow edge from [A] to [A] into the graph and fires both
    the received-money and the sent-money flag of [A]. *)
Lemma self_transfer_scored :
  ∃ res r,
    full_pipeline ex_self_transfer = Some (build_graph ex_self_transfer, res)
    ∧ mkEdge "A" "A" money_flow (Some (mkTxnAttrs 100 1 "T1"))
        ∈ edges (build_graph ex_self_transfer)
    ∧ res !! "A" = Some r
    ∧ flags r = [mkFlag "Received money (1 txn)" 20; mkFlag "Sent money (1 txn)" 20]
    ∧ own_score r = 40.
Proof.
  eexists _, _. split; [vm_compute; reflexivity|].
  split; [vm_compute; left|]. split; [vm_compute; reflexivity|].
  split; reflexivity.
Qed.

(** C9 (amended).  A transaction whose sender equals its receiver is not
    rejected: the pipeline returns its result, the transaction contributes a
    money-flow edge from the account to itself, and the record of that
    account reports both the received-money and the sent-money flag.  It
    never influences loop detection: the loop set is the one of the same
    input without such transactions. *)
Theorem self_transfer_accepted dfs t :
  t ∈ transactions dfs → sender t = receiver t →
  ∃ res,
    full_pipeline dfs = Some (build_graph dfs, res)
    ∧ txn_edge t ∈ edges (build_graph dfs)
    ∧ (∀ r, res !! sender t = Some r →
            received_flag (build_graph dfs) (sender t) ∈ flags r
            ∧ sent_flag (build_graph dfs) (sender t) ∈ flags r)
    ∧ _detect_loops (build_graph dfs) (account_ids_of dfs)
      = _detect_loops (build_graph (without_self_transfers dfs))
          (account_ids_of dfs).
Proof.
  intros Ht Hself.
  destruct (compute_scores_build_graph dfs) as [res Hres].
  assert (txn_edge t ∈ edges (build_graph dfs)) as Hedge.
  { rewrite edges_build_graph. apply elem_of_built_edges. do 3 right. by exists t. }
  exists res. split; [unfold full_pipeline; by rewrite Hres|].
  split; [done|]. split; [|apply detect_loops_without_self_transfers].
  intros r Hr.
  destruct (compute_scores_record _ _ _ _ _ Hres Hr) as [Hin Hs].
  split; apply (fired_flags_rules _ _ _ _ _ Hin Hs).
  - eexists. split; [eapply (list_elem_of_lookup_2 _ 3); reflexivity|].
    exists (txn_edge t). split; [done|]. split; [done|]. by symmetry.
  - eexists. split; [eapply (list_elem_of_lookup_2 _ 4); reflexivity|].
    exists (txn_edge t). done.
Qed.

Lemma self_transfer_accepted_witness :
  ∃ res,
    full_pipeline ex_self_transfer = Some (build_graph ex_self_transfer, res)
    ∧ txn_edge (mkTxn "T1" "A" "A" 100 1) ∈ edges (build_graph ex_self_transfer)
    ∧ (∀ r, res !! "A" = Some r →
            received_flag (build_graph ex_self_transfer) "A" ∈ flags r
            ∧ sent_flag (build_graph ex_self_transfer) "A" ∈ flags r)
    ∧ _detect_loops (build_graph ex_self_transfer) (account_ids_of ex_self_transfer)
      = _detect_loops (build_graph (without_self_transfers ex_self_transfer))
          (account_ids_of ex_self_transfer).
Proof.
  apply (self_transfer_accepted ex_self_transfer (mkTxn "T1" "A" "A" 100 1)).
  - left.
  - reflexivity.
Defined.

(* ===================================================================== *)
(** * Contamination *)
(* ===================================================================== *)

Lemma elem_of_neighbours G dfs acc n :
  n ∈ neighbours G (account_ids_of dfs) acc ↔ account_neighbour G dfs acc n.
Proof.
  unfold neighbours, account_neighbour, out_edges, in_edges.
  rewrite elem_of_union, !elem_of_list_to_set, !list_elem_of_filter,
    !list_elem_of_fmap.
  split.
  - intros [(Hn & e & -> & He)|(Hn & e & -> & He)];
      apply list_elem_of_filter in He as [Ha He]; (split; [done|]);
      exists e; (split; [done|]); [left|right]; done.
  - intros (Hn & e & He & [[Hs Hd]|[Hs Hd]]); [left|right];
      (split; [done|]); exists e; (split; [done|]);
      by apply list_elem_of_filter.
Qed.


Lemma round_half_even_ge_floor x : Qfloor x ≤ round_half_even x.
Proof.
  unfold round_half_even.
  destruct (x - inject_Z (Qfloor x) ?= 1 # 2)%Q; [|lia..].
  destruct (Z.even (Qfloor x)); lia.
Qed.

Lemma round1_pos q : (1 <= q)%Q → (0 < round1 q)%Q.
Proof.
  intros Hq. unfold round1. rewrite Qred_correct.
  assert (10 ≤ round_half_even (q * 10)) as H.
  { etrans; [|apply round_half_even_ge_floor].
    assert (Qfloor 10 ≤ Qfloor (q * 10)) as Hf by (apply Qfloor_resp_le; lra).
    exact Hf. }
  unfold Qlt. simpl. lia.
Qed.

Lemma sum_lower_bound (f : string → Z) (l : list string) :
  (∀ x, x ∈ l → 15 ≤ f x) → 15 * Z.of_nat (length l) ≤ foldr Z.add 0 (f <$> l).
Proof.
  induction l as [|x l IH]; intros Hf; [simpl; lia|].
  rewrite fmap_cons. cbn [foldr length].
  assert (15 ≤ f x) by (apply Hf; left).
  assert (15 * Z.of_nat (length l) ≤ foldr Z.add 0 (f <$> l))
    by (apply IH; intros y Hy; apply Hf; by right).
  lia.
Qed.

(** An edge touching an account fires one of its flags. *)
Lemma touched_account_fires G L hv n e :
  e ∈ edges G → touches e n → ∃ f, (true, f) ∈ flag_checks G L hv n.
Proof.
  intros He Hn. unfold flag_checks.
  destruct (edge_type e) eqn:Ht.
  - eexists. eapply (list_elem_of_lookup_2 _ 0). cbn [lookup list_lookup].
    rewrite bool_decide_eq_true_2; [done|]. apply etc_pos. eauto.
  - eexists. eapply (list_elem_of_lookup_2 _ 1). cbn [lookup list_lookup].
    rewrite bool_decide_eq_true_2; [done|]. apply etc_pos. eauto.
  - eexists. eapply (list_elem_of_lookup_2 _ 2). cbn [lookup list_lookup].
    rewrite bool_decide_eq_true_2; [done|]. apply etc_pos. eauto.
  - destruct Hn as [Hs|Hd].
    + eexists. eapply (list_elem_of_lookup_2 _ 4). cbn [lookup list_lookup].
      rewrite bool_decide_eq_true_2; [done|]. apply out_money_nonempty. eauto.
    + eexists. eapply (list_elem_of_lookup_2 _ 3). cbn [lookup list_lookup].
      rewrite bool_decide_eq_true_2; [done|]. apply in_money_nonempty. eauto.
Qed.

Lemma neighbour_own_score G dfs acc n :
  account_neighbour G dfs acc n → ∃ s, own_scores G dfs !! n = Some s ∧ 15 ≤ s.
Proof.
  intros (Hn & e & He & Hadj). rewrite own_scores_lookup, decide_True by done.
  eexists. split; [done|]. rewrite own_score_flags_checks. cbn [fst].
  assert (touches e n) as Ht by (unfold touches; tauto).
  destruct (touched_account_fires G (_detect_loops G (account_ids_of dfs))
    (high_velocity_senders (transactions dfs)) n e He Ht) as (f & Hf).
  eapply passed_lower_bound; [apply flag_checks_weights|exact Hf].
Qed.

Lemma contamination_of_pos G dfs acc :
  neighbours G (account_ids_of dfs) acc ≠ ∅ →
  (0 < contamination_of (own_scores G dfs) (neighbours G (account_ids_of dfs) acc))%Q.
Proof.
  intros Hne. unfold contamination_of. rewrite decide_False by done.
  set (N := neighbours G (account_ids_of dfs) acc) in *.
  apply round1_pos.
  assert (15 * Z.of_nat (size N) ≤ sum_own (own_scores G dfs) N) as Hsum.
  { unfold sum_own, size, set_size. simpl. apply sum_lower_bound.
    intros x Hx. apply elem_of_elements, elem_of_neighbours in Hx.
    destruct (neighbour_own_score _ _ _ _ Hx) as (s & -> & Hs). done. }
  assert (0 < Z.of_nat (size N)) as Hsize.
  { destruct (size N) eqn:Hs; [|lia]. exfalso. apply Hne.
    apply leibniz_equiv. by apply size_empty_iff. }
  unfold CONTAMINATION_WEIGHT.
  assert (15 <= inject_Z (sum_own (own_scores G dfs) N) / inject_Z (Z.of_nat (size N)))%Q.
  { apply Qle_shift_div_l.
    - change 0%Q with (inject_Z 0). by rewrite <- Zlt_Qlt.
    - change 15%Q with (inject_Z 15). rewrite <- inject_Z_mult, <- Zle_Qle. done. }
  lra.
Qed.




(** C8 (contamination and neighbours).  For every account of a score table,
    contamination is 0.0 exactly when the account has no account-type
    neighbour; with at least one such neighbour it is strictly positive. *)
Theorem contamination_zero_iff_no_neighbour G dfs res acc r :
  compute_scores G dfs = Some res → res !! acc = Some r →
  (contamination r = 0%Q ↔ ∀ n, ¬ account_neighbour G dfs acc n)
  ∧ ((∃ n, account_neighbour G dfs acc n) → (0 < contamination r)%Q).
Proof.
  intros Hres Hr.
  destruct (compute_scores_record _ _ _ _ _ Hres Hr) as [Hin Hs].
  destruct (score_account_fields _ _ _ _ Hin Hs) as (_ & _ & -> & _).
  assert ((∃ n, account_neighbour G dfs acc n) →
          neighbours G (account_ids_of dfs) acc ≠ ∅) as Hne.
  { intros (n & Hn) He. apply elem_of_neighbours in Hn. rewrite He in Hn.
    by apply not_elem_of_empty in Hn. }
  split; [split|].
  - intros Hz n Hn.
    assert (0 < contamination_of (own_scores G dfs)
                  (neighbours G (account_ids_of dfs) acc))%Q as Hpos
      by (apply contamination_of_pos, Hne; eauto).
    rewrite Hz in Hpos. by apply Qlt_irrefl in Hpos.
  - intros Hno. unfold contamination_of. rewrite decide_True; [done|].
    apply set_eq. intros n. rewrite elem_of_neighbours. split; [|by intros ?%not_elem_of_empty].
    intros Hn. by apply Hno in Hn.
  - intros Hex. by apply contamination_of_pos, Hne.
Qed.

Lemma contamination_zero_iff_no_neighbour_witness :
  ∃ res r,
    compute_scores (build_graph ex_lone_identifier) ex_lone_identifier = Some res
    ∧ res !! "A" = Some r
    ∧ (contamination r = 0%Q
       ↔ ∀ n, ¬ account_neighbour (build_graph ex_lone_identifier)
                  ex_lone_identifier "A" n).
Proof.
  eexists _, _. split; [vm_compute; reflexivity|].
  split; [vm_compute; reflexivity|].
  eapply (contamination_zero_iff_no_neighbour
            (build_graph ex_lone_identifier) ex_lone_identifier _ "A");
    vm_compute; reflexivity.
Defined.

(* ===================================================================== *)
(** * Rounding to one decimal place *)
(* ===================================================================== *)

Lemma Qfloor_unique (x : Q) (z : Z) :
  (inject_Z z <= x)%Q → (x < inject_Z (z + 1))%Q → Qfloor x = z.
Proof.
  intros Hl Hu.
  pose proof (Qfloor_le x) as H1. pose proof (Qlt_floor x) as H2.
  assert (inject_Z z < inject_Z (Qfloor x + 1))%Q as H3 by lra.
  assert (inject_Z (Qfloor x) < inject_Z (z + 1))%Q as H4 by lra.
  rewrite <- Zlt_Qlt in H3, H4. lia.
Qed.

Lemma round_half_even_Z (z : Z) : round_half_even (inject_Z z) = z.
Proof.
  unfold round_half_even. rewrite Qfloor_Z.
  destruct (inject_Z z - inject_Z z ?= 1 # 2)%Q eqn:Hc; [| done |].
  - apply Qeq_alt in Hc. lra.
  - apply Qgt_alt in Hc. lra.
Qed.

Lemma round_half_even_comp (x y : Q) :
  (x == y)%Q → round_half_even x = round_half_even y.
Proof.
  intros H. unfold round_half_even. rewrite (Qfloor_comp x y H).
  assert ((x - inject_Z (Qfloor y) ?= 1 # 2)%Q = (y - inject_Z (Qfloor y) ?= 1 # 2)%Q)
    as -> by (by rewrite H).
  done.
Qed.

(** Shifting by an even integer does not change which way a tie goes. *)
Lemma round_half_even_shift (x : Q) (k : Z) :
  Z.even k = true →
  round_half_even (x + inject_Z k) = round_half_even x + k.
Proof.
  intros Hk. unfold round_half_even.
  assert (Qfloor (x + inject_Z k) = Qfloor x + k) as ->.
  { pose proof (Qfloor_le x). pose proof (Qlt_floor x).
    apply Qfloor_unique; rewrite ?inject_Z_plus in *; lra. }
  assert ((x + inject_Z k - inject_Z (Qfloor x + k) ?= 1 # 2)%Q
          = (x - inject_Z (Qfloor x) ?= 1 # 2)%Q) as ->.
  { assert (x + inject_Z k - inject_Z (Qfloor x + k) == x - inject_Z (Qfloor x))%Q
      as -> by (rewrite inject_Z_plus; ring). done. }
  rewrite Z.even_add, Hk.
  destruct (x - inject_Z (Qfloor x) ?= 1 # 2)%Q; [|lia..].
  destruct (Z.even (Qfloor x)); simpl; lia.
Qed.

Lemma round_half_even_le_Z (x : Q) (m : Z) :
  (x <= inject_Z m)%Q → round_half_even x ≤ m.
Proof.
  intros Hx. unfold round_half_even.
  pose proof (Qfloor_le x) as Hf.
  assert (Qfloor x ≤ m) as Hfm.
  { rewrite <- (Qfloor_Z m). by apply Qfloor_resp_le. }
  destruct (decide (Qfloor x = m)) as [Heq|Hne].
  - rewrite Heq in *.
    destruct (x - inject_Z m ?= 1 # 2)%Q eqn:Hc; [| lia |].
    + apply Qeq_alt in Hc. lra.
    + apply Qgt_alt in Hc. lra.
  - destruct (x - inject_Z (Qfloor x) ?= 1 # 2)%Q; [|lia..].
    destruct (Z.even (Qfloor x)); lia.
Qed.

(** Adding an integer commutes with rounding to a tenth. *)
Lemma round1_shift (n : Z) (x : Q) :
  round1 (inject_Z n + x) = Qred (Qmake (10 * n + round_half_even (x * 10)) 10).
Proof.
  unfold round1. f_equal. f_equal.
  rewrite (round_half_even_comp _ (x * 10 + inject_Z (10 * n))).
  - rewrite round_half_even_shift; [lia|]. by rewrite Z.even_mul.
  - rewrite inject_Z_mult. ring.
Qed.

Lemma round_half_even_tenth (z : Z) : round_half_even (Qred (Qmake z 10) * 10) = z.
Proof.
  rewrite (round_half_even_comp _ (inject_Z z)); [apply round_half_even_Z|].
  rewrite Qred_correct. unfold Qeq. simpl. lia.
Qed.

(** Rounding a value that is already rounded, plus an integer, is exact. *)
Lemma round1_tenths (n z : Z) :
  round1 (inject_Z n + Qred (Qmake z 10)) = Qred (Qmake (10 * n + z) 10).
Proof. by rewrite round1_shift, round_half_even_tenth. Qed.


Lemma round1_le (x : Q) (m : Z) : (x <= inject_Z m)%Q → (round1 x <= inject_Z m)%Q.
Proof.
  intros Hx. unfold round1. rewrite Qred_correct.
  assert (round_half_even (x * 10) ≤ 10 * m) as H.
  { apply round_half_even_le_Z. rewrite inject_Z_mult.
    change (inject_Z 10) with 10%Q. lra. }
  unfold Qle. simpl. lia.
Qed.

(** The contamination of a neighbour set is a whole number of tenths,
    between 0 and 51. *)
Lemma contamination_of_tenths G dfs acc :
  ∃ z, 0 ≤ z ≤ 510
       ∧ contamination_of (own_scores G dfs) (neighbours G (account_ids_of dfs) acc)
         = Qred (Qmake z 10).
Proof.
  unfold contamination_of.
  set (N := neighbours G (account_ids_of dfs) acc).
  destruct (decide (N = ∅)) as [He|Hne]; [exists 0; split; [lia|done]|].
  eexists. split; [|reflexivity].
  assert (0 < Z.of_nat (size N)) as Hsize.
  { destruct (size N) eqn:Hs; [|lia]. exfalso. apply Hne.
    apply leibniz_equiv. by apply size_empty_iff. }
  assert (∀ n, n ∈ elements N → 0 ≤ default 0 (own_scores G dfs !! n) ≤ 170) as Hown.
  { intros n _. rewrite own_scores_lookup. case_decide; [|simpl; lia].
    rewrite own_score_flags_checks. cbn [default fst].
    destruct (flag_checks_weights G (_detect_loops G (account_ids_of dfs))
                (high_velocity_senders (transactions dfs)) n) as [Hall <-].
    apply passed_bounds. eapply Forall_impl; [exact Hall|].
    intros p Hp. simpl in Hp. lia. }
  assert (0 ≤ sum_own (own_scores G dfs) N ≤ 170 * Z.of_nat (size N)) as Hsum.
  { unfold sum_own, size, set_size. simpl.
    induction (elements N) as [|n l IH]; [simpl; lia|].
    rewrite fmap_cons. cbn [foldr length].
    assert (0 ≤ default 0 (own_scores G dfs !! n) ≤ 170) by (apply Hown; left).
    assert (0 ≤ foldr Z.add 0 ((λ n, default 0 (own_scores G dfs !! n)) <$> l)
            ≤ 170 * Z.of_nat (length l))
      by (apply IH; intros m Hm; apply Hown; by right).
    lia. }
  set (S := sum_own (own_scores G dfs) N) in *.
  set (k := Z.of_nat (size N)) in *.
  assert (0 < inject_Z k)%Q as Hk
    by (change 0%Q with (inject_Z 0); by rewrite <- Zlt_Qlt).
  assert (0 <= inject_Z S / inject_Z k)%Q as Hlo.
  { apply Qle_shift_div_l; [done|]. rewrite Qmult_0_l.
    change 0%Q with (inject_Z 0). rewrite <- Zle_Qle. lia. }
  assert (inject_Z S / inject_Z k <= 170)%Q as Hhi.
  { apply Qle_shift_div_r; [done|]. change 170%Q with (inject_Z 170).
    rewrite <- inject_Z_mult, <- Zle_Qle. lia. }
  unfold CONTAMINATION_WEIGHT. split.
  - etrans; [|apply round_half_even_ge_floor].
    assert (Qfloor 0 ≤ Qfloor ((3 # 10) * (inject_Z S / inject_Z k) * 10))
      as Hf by (apply Qfloor_resp_le; lra).
    exact Hf.
  - apply round_half_even_le_Z. change (inject_Z 510) with 510%Q. lra.
Qed.

Lemma score_account_display G dfs acc r :
  score_account G dfs acc = Some r →
  ∃ nd, nodes G !! acc = Some nd
        ∧ account_id r = acc
        ∧ holder r = from_option a_holder "" nd
        ∧ ring r = from_option a_ring "" nd
        ∧ city r = from_option a_city "" nd
        ∧ lat r = from_option a_lat 0%Q nd
        ∧ lon r = from_option a_lon 0%Q nd
        ∧ account_type r = from_option a_type "" nd
        ∧ color_hex r = default "" (assoc (classification r) TIER_COLORS_HEX)
        ∧ color_rgb r = default [] (assoc (classification r) TIER_COLORS_RGB).
Proof.
  unfold score_account. destruct (nodes G !! acc) as [nd|]; [|done].
  unfold mbind, option_bind. intros H. exists nd. split; [done|].
  pose proof (f_equal (from_option account_id "") H) as H1.
  pose proof (f_equal (from_option holder "") H) as H2.
  pose proof (f_equal (from_option ring "") H) as H3.
  pose proof (f_equal (from_option city "") H) as H4.
  pose proof (f_equal (from_option lat 0%Q) H) as H5.
  pose proof (f_equal (from_option lon 0%Q) H) as H6.
  pose proof (f_equal (from_option account_type "") H) as H7.
  pose proof (f_equal (from_option color_hex "") H) as H8.
  pose proof (f_equal (from_option color_rgb []) H) as H9.
  pose proof (f_equal (from_option classification "") H) as H10.
  clear H.
  cbn [from_option account_id] in H1. cbn [from_option holder] in H2.
  cbn [from_option ring] in H3. cbn [from_option city] in H4.
  cbn [from_option lat] in H5. cbn [from_option lon] in H6.
  cbn [from_option account_type] in H7. cbn [from_option color_hex] in H8.
  cbn [from_option color_rgb] in H9. cbn [from_option classification] in H10.
  rewrite <- H1, <- H2, <- H3, <- H4, <- H5, <- H6, <- H7, <- H8, <- H9, <- H10.
  repeat split; reflexivity.
Qed.

(* ===================================================================== *)
(** * Further properties of the classifier and of the scores *)
(* ===================================================================== *)

Lemma classify_spec (q : Q) :
  (classify q = "CLEAN" ↔ (0 <= q <= 30)%Q)
  ∧ (classify q = "WATCH" ↔ (31 <= q <= 60)%Q)
  ∧ (classify q = "SUSPICIOUS" ↔ (61 <= q <= 90)%Q)
  ∧ (classify q = "BLOCK" ↔
       (q < 0 ∨ 30 < q < 31 ∨ 60 < q < 61 ∨ 90 < q)%Q).
Proof.
  classify_cases;
    (repeat split; intros; try discriminate; try reflexivity; try lra;
     try (exfalso; lra)).
  all: try (right; right; right; lra).
  all: try (right; right; left; lra).
  all: try (right; left; lra).
  all: try (left; lra).
  all: try (exfalso; intuition lra).
Qed.

(** X1 (classifier).  [classify] returns CLEAN exactly on [0, 30], WATCH
    exactly on [31, 60], SUSPICIOUS exactly on [61, 90], and BLOCK on every
    other score: above 90, below 0, and strictly between two ranges. *)
Theorem classify_tiers (q : Q) :
  (classify q = "CLEAN" ↔ (0 <= q <= 30)%Q)
  ∧ (classify q = "WATCH" ↔ (31 <= q <= 60)%Q)
  ∧ (classify q = "SUSPICIOUS" ↔ (61 <= q <= 90)%Q)
  ∧ (classify q = "BLOCK" ↔
       (q < 0 ∨ 30 < q < 31 ∨ 60 < q < 61 ∨ 90 < q)%Q).
Proof. apply classify_spec. Qed.

Lemma classify_label (q : Q) : classify q ∈ risk_order.
Proof.
  unfold risk_order. classify_cases; set_solver.
Qed.

(** X2 (tier colours).  The classification of every score record is one of
    the four tier labels, so the two colour-table lookups of [compute_scores]
    never miss: the record carries the hex and the RGB colour of its tier. *)
Theorem record_colours G dfs res acc r :
  compute_scores G dfs = Some res → res !! acc = Some r →
  classification r ∈ ["CLEAN"; "WATCH"; "SUSPICIOUS"; "BLOCK"]
  ∧ assoc (classification r) TIER_COLORS_HEX = Some (color_hex r)
  ∧ assoc (classification r) TIER_COLORS_RGB = Some (color_rgb r).
Proof.
  intros Hres Hr.
  destruct (compute_scores_record _ _ _ _ _ Hres Hr) as [Hin Hs].
  destruct (score_account_fields _ _ _ _ Hin Hs) as (_ & _ & _ & _ & Hcl & _).
  destruct (score_account_display _ _ _ _ Hs)
    as (nd & _ & _ & _ & _ & _ & _ & _ & _ & -> & ->).
  pose proof (classify_label (final_score r)) as Hl. rewrite <- Hcl in Hl.
  split; [exact Hl|]. unfold risk_order in Hl.
  repeat (apply elem_of_cons in Hl as [->|Hl]; [split; reflexivity|]).
  by apply elem_of_nil in Hl.
Qed.

Lemma record_colours_witness :
  ∃ res r,
    compute_scores (build_graph ex_receiver) ex_receiver = Some res
    ∧ res !! "X" = Some r
    ∧ assoc (classification r) TIER_COLORS_HEX = Some (color_hex r).
Proof.
  eexists _, _. split; [vm_compute; reflexivity|].
  split; [vm_compute; reflexivity|].
  eapply (record_colours (build_graph ex_receiver) ex_receiver _ "X");
    vm_compute; reflexivity.
Defined.

Lemma record_scores_tenths G dfs res acc r :
  compute_scores G dfs = Some res → res !! acc = Some r →
  ∃ z, 0 ≤ z ≤ 510
       ∧ contamination r = Qred (Qmake z 10)
       ∧ final_score r = Qred (Qmake (10 * own_score r + z) 10)
       ∧ 0 ≤ own_score r ≤ 170.
Proof.
  intros Hres Hr.
  destruct (compute_scores_record _ _ _ _ _ Hres Hr) as [Hin Hs].
  destruct (score_account_fields _ _ _ _ Hin Hs) as (Hfl & Hown & Hc & Hf & _).
  destruct (contamination_of_tenths G dfs acc) as (z & Hz & Hcz).
  exists z. split; [done|]. split; [by rewrite Hc|].
  split; [by rewrite Hf, Hc, Hcz, round1_tenths|].
  rewrite Hown, Hfl.
  destruct (flag_checks_weights G (_detect_loops G (account_ids_of dfs))
              (high_velocity_senders (transactions dfs)) acc) as [Hall <-].
  apply passed_bounds. eapply Forall_impl; [exact Hall|].
  intros p Hp. simpl in Hp. lia.
Qed.

(** X3 (second rounding).  In every score record the contamination is a
    whole number of tenths, and the final score equals own score plus
    contamination exactly: rounding the sum to one decimal changes nothing. *)
Theorem final_score_exact_sum G dfs res acc r :
  compute_scores G dfs = Some res → res !! acc = Some r →
  (final_score r == inject_Z (own_score r) + contamination r)%Q
  ∧ ∃ z : Z, (contamination r == inject_Z z / 10)%Q.
Proof.
  intros Hres Hr.
  destruct (record_scores_tenths _ _ _ _ _ Hres Hr) as (z & _ & -> & -> & _).
  split.
  - rewrite !Qred_correct. unfold Qeq. simpl. lia.
  - exists z. rewrite Qred_correct. unfold Qeq. simpl. lia.
Qed.

Lemma final_score_exact_sum_witness :
  ∃ res r,
    compute_scores (build_graph ex_receiver) ex_receiver = Some res
    ∧ res !! "X" = Some r
    ∧ (final_score r == inject_Z (own_score r) + contamination r)%Q.
Proof.
  eexists _, _. split; [vm_compute; reflexivity|].
  split; [vm_compute; reflexivity|].
  eapply (final_score_exact_sum (build_graph ex_receiver) ex_receiver _ "X");
    vm_compute; reflexivity.
Defined.

(** X4 (score bounds).  In every score record the contamination lies between
    0 and 51 (0.30 times the greatest own score, 170), and the final score
    lies between the own score and 221. *)
Theorem score_bounds G dfs res acc r :
  compute_scores G dfs = Some res → res !! acc = Some r →
  (0 <= contamination r <= 51)%Q
  ∧ (inject_Z (own_score r) <= final_score r <= 221)%Q.
Proof.
  intros Hres Hr.
  destruct (record_scores_tenths _ _ _ _ _ Hres Hr) as (z & Hz & -> & -> & Hown).
  rewrite !Qred_correct. unfold Qle. simpl. lia.
Qed.

Lemma score_bounds_witness :
  ∃ res r,
    compute_scores (build_graph ex_all_flags) ex_all_flags = Some res
    ∧ res !! "A" = Some r
    ∧ (0 <= contamination r <= 51)%Q
    ∧ (inject_Z (own_score r) <= final_score r <= 221)%Q.
Proof.
  eexists _, _. split; [vm_compute; reflexivity|].
  split; [vm_compute; reflexivity|].
  eapply (score_bounds (build_graph ex_all_flags) ex_all_flags _ "A");
    vm_compute; reflexivity.
Defined.

(* ===================================================================== *)
(** * Further properties of the graph builder *)
(* ===================================================================== *)

Lemma filter_none {A} (P : A → Prop) `{∀ x, Decision (P x)} (l : list A) :
  (∀ x, x ∈ l → ¬ P x) → filter P l = [].
Proof.
  induction l as [|x l IH]; intros Hl; [done|].
  rewrite filter_cons_False by (apply Hl; left).
  apply IH. intros y Hy. apply Hl. by right.
Qed.

Lemma filter_all {A} (P : A → Prop) `{∀ x, Decision (P x)} (l : list A) :
  (∀ x, x ∈ l → P x) → filter P l = l.
Proof.
  induction l as [|x l IH]; intros Hl; [done|].
  rewrite filter_cons_True by (apply Hl; left).
  f_equal. apply IH. intros y Hy. apply Hl. by right.
Qed.

Lemma filter_shared_edges_money t grps :
  t ≠ money_flow →
  filter (λ e, edge_type e = money_flow) (shared_edges t grps) = [].
Proof.
  intros Ht. apply filter_none.
  intros e He Hm. apply shared_edges_type in He. congruence.
Qed.

Lemma money_flow_edges_eq dfs :
  filter (λ e, edge_type e = money_flow) (edges (build_graph dfs))
  = txn_edge <$> transactions dfs.
Proof.
  rewrite edges_build_graph. unfold built_edges.
  rewrite !filter_app, !filter_shared_edges_money by done. simpl.
  apply filter_all. by intros e (row & -> & _)%list_elem_of_fmap.
Qed.

(** X5 (money-flow edges).  The money-flow edges of the built graph are the
    transactions, one edge per transaction in table order, each from sender
    to receiver with the amount, timestamp and id of its transaction. *)
Theorem money_flow_edges_are_transactions dfs :
  filter (λ e, edge_type e = money_flow) (edges (build_graph dfs))
  = (λ row, mkEdge (sender row) (receiver row) money_flow
              (Some (mkTxnAttrs (amount row) (timestamp row) (txn_id row))))
    <$> transactions dfs.
Proof. apply money_flow_edges_eq. Qed.

Lemma elem_of_combinations2_lookup l a b :
  (a, b) ∈ combinations2 l ↔
  ∃ i j, (i < j)%nat ∧ l !! i = Some a ∧ l !! j = Some b.
Proof.
  induction l as [|x l IH]; simpl.
  - split; [by intros ?%elem_of_nil|]. by intros (i & j & _ & ? & _).
  - rewrite elem_of_app, list_elem_of_fmap, IH. split.
    + intros [(y & [= -> ->] & Hy)|(i & j & Hij & Hi & Hj)].
      * apply list_elem_of_lookup in Hy as (j & Hj).
        exists 0%nat, (S j). split; [lia|done].
      * exists (S i), (S j). split; [lia|done].
    + intros (i & j & Hij & Hi & Hj). destruct j as [|j]; [lia|].
      destruct i as [|i]; simpl in *.
      * left. exists b. split; [congruence|]. by eapply list_elem_of_lookup_2.
      * right. exists i, j. split; [lia|done].
Qed.

(** The edges of one grouped selection join every two different rows of a
    group, in both directions. *)
Lemma shared_edges_pairs t rows a b :
  mkEdge a b t None ∈ shared_edges t (groupby rows) ↔
  ∃ k i j, i ≠ j ∧ rows_of k rows !! i = Some a ∧ rows_of k rows !! j = Some b.
Proof.
  rewrite elem_of_shared_edges. split.
  - intros ([k l] & x & y & Hg & Hp & He).
    apply elem_of_groupby in Hg as [-> _]. simpl in Hp.
    apply elem_of_combinations2_lookup in Hp as (i & j & Hij & Hi & Hj).
    exists k. destruct He as [[= -> ->]|[= -> ->]].
    + exists i, j. split; [lia|done].
    + exists j, i. split; [lia|done].
  - intros (k & i & j & Hij & Hi & Hj).
    assert ((k, rows_of k rows) ∈ groupby rows) as Hg.
    { apply elem_of_groupby. split; [done|]. intros Hnil. by rewrite Hnil in Hi. }
    exists (k, rows_of k rows).
    destruct (decide (i < j)%nat).
    + exists a, b. split; [done|]. split; [|by left].
      apply elem_of_combinations2_lookup. exists i, j. done.
    + exists b, a. split; [done|]. split; [|by right].
      apply elem_of_combinations2_lookup. exists j, i. split; [lia|done].
Qed.

Lemma shared_edge_in_graph dfs a b t :
  t ≠ money_flow →
  (∃ e, e ∈ edges (build_graph dfs)
        ∧ e_src e = a ∧ e_dst e = b ∧ edge_type e = t) ↔
  mkEdge a b t None ∈ edges (build_graph dfs).
Proof.
  intros Ht. split; [|intros He; by exists (mkEdge a b t None)].
  intros (e & He & <- & <- & <-). rewrite edges_build_graph in *.
  assert (∀ t' grps, e ∈ shared_edges t' grps → e = mkEdge (e_src e) (e_dst e) t' None)
    as Hform.
  { intros t' grps (g & x & y & _ & _ & [-> | ->])%elem_of_shared_edges; done. }
  apply elem_of_built_edges in He as [He|[He|[He|(row & _ & ->)]]];
    [| | |done];
    pose proof (shared_edges_type _ _ _ He) as Hty;
    pose proof (Hform _ _ He) as Hf; rewrite Hty;
    apply elem_of_built_edges; rewrite <- Hf; eauto.
Qed.

(** X6 (all pairs of a group).  The built graph has a [shared_ip] edge from
    [a] to [b] exactly when [a] and [b] are the accounts of two different
    rows among the IP rows of one identifier value; likewise [shared_device]
    for the device rows (MAC or IMEI) and [shared_touchpoint] for the rows of
    one touchpoint: every pair of a group is joined, not a chain, and an
    account recorded twice under one value is joined to itself. *)
Theorem shared_edges_join_all_pairs dfs a b :
  ((∃ e, e ∈ edges (build_graph dfs)
         ∧ e_src e = a ∧ e_dst e = b ∧ edge_type e = shared_ip) ↔
   ∃ k i j, i ≠ j ∧ rows_of k (ip_rows dfs) !! i = Some a
            ∧ rows_of k (ip_rows dfs) !! j = Some b)
  ∧ ((∃ e, e ∈ edges (build_graph dfs)
           ∧ e_src e = a ∧ e_dst e = b ∧ edge_type e = shared_device) ↔
     ∃ k i j, i ≠ j ∧ rows_of k (dev_rows dfs) !! i = Some a
              ∧ rows_of k (dev_rows dfs) !! j = Some b)
  ∧ ((∃ e, e ∈ edges (build_graph dfs)
           ∧ e_src e = a ∧ e_dst e = b ∧ edge_type e = shared_touchpoint) ↔
     ∃ k i j, i ≠ j ∧ rows_of k (tp_rows dfs) !! i = Some a
              ∧ rows_of k (tp_rows dfs) !! j = Some b).
Proof.
  assert (∀ t grps, t ≠ shared_ip → mkEdge a b shared_ip None ∉ shared_edges t grps) as N1.
  { intros t grps Ht He. apply shared_edges_type in He. simpl in He. congruence. }
  assert (∀ t grps, t ≠ shared_device → mkEdge a b shared_device None ∉ shared_edges t grps) as N2.
  { intros t grps Ht He. apply shared_edges_type in He. simpl in He. congruence. }
  assert (∀ t grps, t ≠ shared_touchpoint →
            mkEdge a b shared_touchpoint None ∉ shared_edges t grps) as N3.
  { intros t grps Ht He. apply shared_edges_type in He. simpl in He. congruence. }
  rewrite !shared_edge_in_graph by done. rewrite edges_build_graph.
  rewrite <- (shared_edges_pairs shared_ip), <- (shared_edges_pairs shared_device),
    <- (shared_edges_pairs shared_touchpoint).
  fold (ip_grps dfs) (dev_grps dfs) (tp_grps dfs).
  rewrite !elem_of_built_edges. unfold txn_edge.
  split; [|split]; (split; [|by eauto]).
  - intros [?|[He|[He|(row & _ & [=])]]]; [done|exfalso..];
      [eapply N1 in He|eapply N1 in He]; done.
  - intros [He|[?|[He|(row & _ & [=])]]]; [|done|]; exfalso;
      [eapply N2 in He|eapply N2 in He]; done.
  - intros [He|[He|[?|(row & _ & [=])]]]; [| |done]; exfalso;
      [eapply N3 in He|eapply N3 in He]; done.
Qed.

Lemma nodes_account_nodes_last rows x row :
  nodes (account_nodes rows) !! x = Some (Some row) →
  ∃ l1 l2, rows = l1 ++ row :: l2 ∧ a_account_id row = x
           ∧ x ∉ (a_account_id <$> l2).
Proof.
  induction rows as [|r rows IH] using rev_ind.
  - simpl. by rewrite lookup_empty.
  - rewrite account_nodes_snoc. unfold add_node. simpl.
    destruct (decide (a_account_id r = x)) as [<-|Hne].
    + rewrite lookup_insert_eq. intros [= <-]. exists rows, [].
      split; [done|]. split; [done|]. apply not_elem_of_nil.
    + rewrite lookup_insert_ne by done. intros H.
      destruct (IH H) as (l1 & l2 & -> & Hid & Hnot).
      exists l1, (l2 ++ [r]). rewrite <- app_assoc. split; [done|].
      split; [done|]. rewrite fmap_app. set_solver.
Qed.

(** X7 (account attributes).  The holder, ring, city, coordinates and account
    type of a score record are those of the account's row in the accounts
    table; when several rows carry the same account id, those of the last
    one. *)
Theorem record_attributes dfs res acc r :
  compute_scores (build_graph dfs) dfs = Some res → res !! acc = Some r →
  ∃ row l1 l2,
    accounts dfs = l1 ++ row :: l2
    ∧ a_account_id row = acc ∧ (acc ∉ (a_account_id <$> l2))
    ∧ account_id r = acc
    ∧ holder r = a_holder row ∧ ring r = a_ring row ∧ city r = a_city row
    ∧ lat r = a_lat row ∧ lon r = a_lon row ∧ account_type r = a_type row.
Proof.
  intros Hres Hr.
  destruct (compute_scores_record _ _ _ _ _ Hres Hr) as [Hin Hs].
  destruct (score_account_display _ _ _ _ Hs)
    as (nd & Hnd & -> & -> & -> & -> & -> & -> & -> & _).
  destruct (nodes_build_graph_account dfs acc Hin) as (row & _ & _ & Hrow).
  rewrite Hrow in Hnd. injection Hnd as <-.
  rewrite build_graph_add_edges, nodes_add_edges in Hrow.
  destruct (nodes (account_nodes (accounts dfs)) !! acc) as [nd|] eqn:Hn.
  - injection Hrow as ->.
    destruct (nodes_account_nodes_last _ _ _ Hn) as (l1 & l2 & H1 & H2 & H3).
    exists row, l1, l2. done.
  - by case_decide.
Qed.

Lemma record_attributes_witness :
  ∃ res r,
    compute_scores (build_graph ex_shared_ip) ex_shared_ip = Some res
    ∧ res !! "B" = Some r
    ∧ ∃ row l1 l2,
        accounts ex_shared_ip = l1 ++ row :: l2
        ∧ a_account_id row = "B" ∧ ("B" ∉ (a_account_id <$> l2))
        ∧ account_id r = "B"
        ∧ holder r = a_holder row ∧ ring r = a_ring row ∧ city r = a_city row
        ∧ lat r = a_lat row ∧ lon r = a_lon row ∧ account_type r = a_type row.
Proof.
  eexists _, _. split; [vm_compute; reflexivity|].
  split; [vm_compute; reflexivity|].
  eapply (record_attributes ex_shared_ip _ "B"); vm_compute; reflexivity.
Defined.

(* ===================================================================== *)
(** * Further properties of the flag scorer *)
(* ===================================================================== *)

Lemma walk_last_step (R : string → string → Prop) u l v :
  walk R u l v → ∃ y, R y v.
Proof.
  revert u. induction l as [|x l IH]; intros u; simpl; [eauto|].
  intros [_ H]. by eapply IH.
Qed.

(** On a directed cycle every node has a successor and a predecessor. *)
Lemma directed_cycle_degree (R : string → string → Prop) c x :
  directed_cycle R c → x ∈ c → (∃ y, R x y) ∧ (∃ y, R y x).
Proof.
  intros Hc Hx. apply list_elem_of_split in Hx as (l1 & l2 & ->).
  apply directed_cycle_rotate in Hc as [_ Hw]. split.
  - eapply walk_successor; [exact Hw|left].
  - by eapply walk_last_step.
Qed.

Lemma no_edge_no_rule G dfs acc f (P : Prop) :
  (∀ e, e ∈ edges G → ¬ touches e acc) →
  (send_count (transactions dfs) acc < 3)%nat →
  (f, P) ∈ flag_rules G dfs acc → ¬ P.
Proof.
  intros Hno Hsend Hin. unfold flag_rules in Hin.
  repeat (apply elem_of_cons in Hin as [[= -> ->]|Hin]);
    [..|by apply elem_of_nil in Hin].
  - intros (e & He & _ & Ht). by eapply Hno.
  - intros (e & He & _ & Ht). by eapply Hno.
  - intros (e & He & _ & Ht). by eapply Hno.
  - intros (e & He & _ & Ht). eapply Hno; [exact He|by right].
  - intros (e & He & _ & Ht). eapply Hno; [exact He|by left].
  - intros (c & Hc & _ & Hx).
    destruct (directed_cycle_degree _ _ _ Hc Hx) as [(y & _ & _ & e & He & Hs & _) _].
    eapply Hno; [exact He|by left].
  - lia.
Qed.

(** X8 (isolated account).  A listed account that no transaction names and
    that shares no identifier value and no touchpoint with another row has
    own score 0, no flag, contamination 0.0, final score 0.0, tier CLEAN and
    is in no loop. *)
Theorem isolated_account_is_clean dfs res acc r :
  compute_scores (build_graph dfs) dfs = Some res → res !! acc = Some r →
  ¬ edge_referenced dfs acc →
  own_score r = 0 ∧ flags r = [] ∧ contamination r = 0%Q
  ∧ final_score r = 0%Q ∧ classification r = "CLEAN" ∧ in_loop r = false.
Proof.
  intros Hres Hr Hiso.
  destruct (compute_scores_record _ _ _ _ _ Hres Hr) as [Hin Hs].
  destruct (score_account_fields _ _ _ _ Hin Hs) as (_ & Hown & Hc & Hf & Hcl & Hl).
  assert (∀ e, e ∈ edges (build_graph dfs) → ¬ touches e acc) as Hno.
  { intros e He Ht. apply Hiso, touched_iff_referenced. eauto. }
  assert (send_count (transactions dfs) acc < 3)%nat as Hsend.
  { destruct (send_count (transactions dfs) acc) eqn:Hn; [lia|]. exfalso.
    assert (0 < length (filter (λ t, sender t = acc) (transactions dfs)))%nat
      as Hpos by (unfold send_count in Hn; lia).
    apply length_pos_elem_of in Hpos as (t & Ht).
    apply list_elem_of_filter in Ht as [Hsnd Ht].
    apply Hiso. left. exists t. split; [done|by left]. }
  assert (flags r = []) as Hfl.
  { destruct (flags r) as [|f fl] eqn:Hfl; [done|]. exfalso.
    assert (f ∈ flags r) as Hf' by (rewrite Hfl; left).
    apply (fired_flags_rules _ _ _ _ _ Hin Hs) in Hf' as (P & HP & Hp).
    by eapply no_edge_no_rule. }
  assert (neighbours (build_graph dfs) (account_ids_of dfs) acc = ∅) as Hnb.
  { apply set_eq. intros n. split; [|by intros ?%not_elem_of_empty].
    intros (_ & e & He & Hadj)%elem_of_neighbours. exfalso.
    eapply Hno; [exact He|]. unfold touches. tauto. }
  assert (¬ acc ∈ _detect_loops (build_graph dfs) (account_ids_of dfs)) as Hnl.
  { intros (c & Hcy & _ & Hx)%detect_loops_spec.
    destruct (directed_cycle_degree _ _ _ Hcy Hx) as [(y & _ & _ & e & He & Hsrc & _) _].
    eapply Hno; [exact He|by left]. }
  rewrite Hfl in Hown. change (sum_weights []) with 0 in Hown.
  rewrite Hnb in Hc. unfold contamination_of in Hc. rewrite decide_True in Hc by done.
  rewrite Hown, Hc in Hf. change (round1 (inject_Z 0 + 0)) with 0%Q in Hf.
  rewrite Hf in Hcl. change (classify 0) with "CLEAN" in Hcl.
  rewrite bool_decide_eq_false_2 in Hl by done. done.
Qed.

Lemma isolated_account_is_clean_witness :
  ∃ res r,
    compute_scores (build_graph ex_lone_identifier) ex_lone_identifier = Some res
    ∧ res !! "A" = Some r
    ∧ own_score r = 0 ∧ flags r = [] ∧ contamination r = 0%Q
    ∧ final_score r = 0%Q ∧ classification r = "CLEAN" ∧ in_loop r = false.
Proof.
  eexists _, _. split; [vm_compute; reflexivity|].
  split; [vm_compute; reflexivity|].
  eapply (isolated_account_is_clean ex_lone_identifier _ "A");
    [vm_compute; reflexivity..|].
  intros [(t & Ht & _)|[(k & Hk & _)|[(k & Hk & _)|(k & Hk & _)]]].
  - by apply elem_of_nil in Ht.
  - vm_compute in Hk. apply list_elem_of_singleton in Hk. discriminate Hk.
  - vm_compute in Hk. by apply elem_of_nil in Hk.
  - vm_compute in Hk. by apply elem_of_nil in Hk.
Defined.

(** Three fired flags of the seven tests: received, sent and loop. *)
Lemma loop_checks_lower_bound G L hv acc :
  in_money G acc ≠ [] → out_money G acc ≠ [] → acc ∈ L →
  80 ≤ sum_weights (passed (flag_checks G L hv acc)).
Proof.
  intros Hi Ho Hl. unfold flag_checks, passed, sum_weights.
  rewrite (bool_decide_eq_true_2 _ Hi), (bool_decide_eq_true_2 _ Ho),
    (bool_decide_eq_true_2 _ Hl).
  destruct (bool_decide (0 < etc G acc shared_ip)%nat),
    (bool_decide (0 < etc G acc shared_device)%nat),
    (bool_decide (0 < etc G acc shared_touchpoint)%nat),
    (bool_decide (acc ∈ hv)); cbn [filter list_filter fmap list_fmap foldr fst snd weight];
    repeat (rewrite ?filter_cons, ?filter_nil; cbn [fst snd]);
    repeat first [rewrite decide_True by done | rewrite decide_False by done];
    rewrite ?fmap_cons; cbn [foldr fmap list_fmap snd weight]; lia.
Qed.

(** X10 (loop accounts).  An account with loop membership reports the loop
    flag together with the received-money and the sent-money flag, so its
    own score is at least 80, and its tier is SUSPICIOUS or BLOCK. *)
Theorem loop_account_scores G dfs res acc r :
  compute_scores G dfs = Some res → res !! acc = Some r →
  in_loop r = true →
  mkFlag "Transaction Loop Detected" 40 ∈ flags r
  ∧ received_flag G acc ∈ flags r ∧ sent_flag G acc ∈ flags r
  ∧ 80 ≤ own_score r
  ∧ classification r ∈ ["SUSPICIOUS"; "BLOCK"].
Proof.
  intros Hres Hr Hloop.
  destruct (compute_scores_record _ _ _ _ _ Hres Hr) as [Hin Hs].
  destruct (score_account_fields _ _ _ _ Hin Hs) as (Hfl & Hown & _ & _ & Hcl & Hl).
  rewrite Hl in Hloop. apply bool_decide_eq_true in Hloop.
  pose proof Hloop as (c & Hc & Hlen & Hx)%detect_loops_spec.
  destruct (directed_cycle_degree _ _ _ Hc Hx)
    as [(y & _ & _ & eo & Heo & Hso & _ & Hto) (y' & _ & _ & ei & Hei & _ & Hdi & Hti)].
  assert (in_money G acc ≠ []) as Hi by (apply in_money_nonempty; eauto).
  assert (out_money G acc ≠ []) as Ho by (apply out_money_nonempty; eauto).
  assert (80 ≤ own_score r) as H80.
  { rewrite Hown, Hfl. by apply loop_checks_lower_bound. }
  split; [|split; [|split; [|split; [done|]]]].
  - apply (fired_flags_rules _ _ _ _ _ Hin Hs). eexists.
    split; [eapply (list_elem_of_lookup_2 _ 5); reflexivity|]. eauto.
  - apply (fired_flags_rules _ _ _ _ _ Hin Hs). eexists.
    split; [eapply (list_elem_of_lookup_2 _ 3); reflexivity|]. eauto.
  - apply (fired_flags_rules _ _ _ _ _ Hin Hs). eexists.
    split; [eapply (list_elem_of_lookup_2 _ 4); reflexivity|]. eauto.
  - destruct (record_scores_tenths _ _ _ _ _ Hres Hr) as (z & Hz & _ & Hf & _).
    assert (80 <= final_score r)%Q as Hge.
    { rewrite Hf, Qred_correct. unfold Qle. simpl. lia. }
    pose proof (classify_label (final_score r)) as Hlab. rewrite <- Hcl in Hlab.
    destruct (classify_spec (final_score r)) as (H1 & H2 & _). rewrite <- Hcl in H1, H2.
    unfold risk_order in Hlab.
    apply elem_of_cons in Hlab as [Hlab|Hlab]; [apply H1 in Hlab; lra|].
    apply elem_of_cons in Hlab as [Hlab|Hlab]; [apply H2 in Hlab; lra|].
    exact Hlab.
Qed.

Lemma loop_account_scores_witness :
  ∃ res r,
    compute_scores (build_graph ex_all_flags) ex_all_flags = Some res
    ∧ res !! "C" = Some r
    ∧ 80 ≤ own_score r
    ∧ classification r ∈ ["SUSPICIOUS"; "BLOCK"].
Proof.
  eexists _, _. split; [vm_compute; reflexivity|].
  split; [vm_compute; reflexivity|].
  eapply (loop_account_scores (build_graph ex_all_flags) ex_all_flags _ "C");
    vm_compute; reflexivity.
Defined.









(* ===================================================================== *)
(** * Transaction arcs *)
(* ===================================================================== *)

Lemma index_of_is_Some c l : is_Some (index_of c l) ↔ c ∈ l.
Proof.
  induction l as [|x l IH]; simpl.
  - split; [by intros [? ?]|by intros ?%elem_of_nil].
  - destruct (String.eqb x c) eqn:Hx.
    + apply String.eqb_eq in Hx as ->. split; [intros _; left|by eexists].
    + apply String.eqb_neq in Hx. rewrite fmap_is_Some, IH. set_solver.
Qed.

Lemma higher_tier_None a b :
  higher_tier a b = None ↔ a ∉ risk_order ∨ b ∉ risk_order.
Proof.
  unfold higher_tier. rewrite <- !index_of_is_Some.
  destruct (index_of a risk_order) as [ka|], (index_of b risk_order) as [kb|];
    simpl; split; try done.
  - intros [H|H]; exfalso; apply H; by eexists.
  - intros _. right. by intros [? ?].
  - intros _. left. by intros [? ?].
  - intros _. left. by intros [? ?].
Qed.

Lemma arc_of_Some scores t y :
  arc_of scores t = Some y ↔
  (¬ scored_endpoints scores t ∧ y = None)
  ∨ (∃ a, y = Some a ∧ arc_for scores t a).
Proof.
  unfold arc_of, scored_endpoints, arc_for, higher_tier.
  destruct (scores !! sender t) as [src|] eqn:Hs;
    destruct (scores !! receiver t) as [tgt|] eqn:Ht.
  - destruct (index_of (classification src) risk_order) as [ks|] eqn:Hks;
      destruct (index_of (classification tgt) risk_order) as [kt|] eqn:Hkt;
      unfold mbind, option_bind; split.
    + intros [= <-]. right. eexists. split; [done|].
      exists src, tgt, ks, kt. done.
    + intros [[Hn _]|(a & -> & s' & t' & ks' & kt' & [= <-] & [= <-] & Hi1 & Hi2 & ->)].
      * exfalso. apply Hn. split; by eexists.
      * assert (ks' = ks) as -> by congruence.
        assert (kt' = kt) as -> by congruence. done.
    + done.
    + intros [[Hn _]|(a & -> & s' & t' & ks' & kt' & [= <-] & [= <-] & Hi1 & Hi2 & ->)].
      * exfalso. apply Hn. split; by eexists.
      * congruence.
    + done.
    + intros [[Hn _]|(a & -> & s' & t' & ks' & kt' & [= <-] & [= <-] & Hi1 & Hi2 & ->)].
      * exfalso. apply Hn. split; by eexists.
      * congruence.
    + done.
    + intros [[Hn _]|(a & -> & s' & t' & ks' & kt' & [= <-] & [= <-] & Hi1 & Hi2 & ->)].
      * exfalso. apply Hn. split; by eexists.
      * congruence.
  - split.
    + intros [= <-]. left. split; [|done]. by intros [_ [? ?]].
    + intros [[_ ->]|(a & _ & s' & t' & _ & _ & _ & ? & _)]; [done|congruence].
  - split.
    + intros [= <-]. left. split; [|done]. by intros [[? ?] _].
    + intros [[_ ->]|(a & _ & s' & t' & _ & _ & ? & _)]; [done|congruence].
  - split.
    + intros [= <-]. left. split; [|done]. by intros [[? ?] _].
    + intros [[_ ->]|(a & _ & s' & t' & _ & _ & ? & _)]; [done|congruence].
Qed.

Lemma arc_of_None scores t :
  arc_of scores t = None ↔
  ∃ src tgt, scores !! sender t = Some src ∧ scores !! receiver t = Some tgt
             ∧ (classification src ∉ risk_order ∨ classification tgt ∉ risk_order).
Proof.
  unfold arc_of.
  destruct (scores !! sender t) as [src|] eqn:Hs;
    destruct (scores !! receiver t) as [tgt|] eqn:Ht.
  - destruct (higher_tier (classification src) (classification tgt)) eqn:Hh; simpl.
    + split; [done|]. intros (s' & t' & [= <-] & [= <-] & Hn).
      apply higher_tier_None in Hn. congruence.
    + split; [|done]. intros _. exists src, tgt. split; [done|]. split; [done|].
      by apply higher_tier_None.
  - split; [done|]. by intros (s' & t' & _ & ? & _).
  - split; [done|]. by intros (s' & t' & ? & _).
  - split; [done|]. by intros (s' & t' & ? & _).
Qed.

(** The arcs are those of the transactions whose two endpoints have a score
    record, in table order. *)
Lemma get_transaction_arcs_Some scores dfs arcs :
  get_transaction_arcs scores dfs = Some arcs →
  Forall2 (λ a t, arc_for scores t a) arcs
    (filter (scored_endpoints scores) (transactions dfs)).
Proof.
  unfold get_transaction_arcs.
  destruct (mapM (arc_of scores) (transactions dfs)) as [ys|] eqn:Hm; [|done].
  unfold mbind, option_bind. intros [= <-]. apply mapM_Some in Hm.
  induction Hm as [|t y l k Hy _ IH]; [constructor|].
  apply arc_of_Some in Hy as [[Hn ->]|(a & -> & Ha)].
  - rewrite filter_cons_False by done. exact IH.
  - rewrite filter_cons_True.
    + simpl. by constructor.
    + destruct Ha as (src & tgt & _ & _ & Hs & Ht & _). split; by eexists.
Qed.

Lemma get_transaction_arcs_None scores dfs :
  get_transaction_arcs scores dfs = None ↔
  ∃ t src tgt,
    t ∈ transactions dfs
    ∧ scores !! sender t = Some src ∧ scores !! receiver t = Some tgt
    ∧ (classification src ∉ risk_order ∨ classification tgt ∉ risk_order).
Proof.
  unfold get_transaction_arcs.
  destruct (mapM (arc_of scores) (transactions dfs)) as [ys|] eqn:Hm.
  - split; [done|]. intros (t & src & tgt & Ht & H). exfalso.
    apply mapM_Some in Hm.
    assert (is_Some (arc_of scores t)) as [y Hy].
    { clear H. induction Hm as [|t' y l k Hy _ IH]; [by apply elem_of_nil in Ht|].
      apply elem_of_cons in Ht as [->|Ht]; [by eexists|by apply IH]. }
    assert (arc_of scores t = None) as Hn by (apply arc_of_None; eauto).
    congruence.
  - split; [|done]. intros _. apply mapM_None in Hm.
    apply Exists_exists in Hm as (t & Ht & Hn).
    apply arc_of_None in Hn as (src & tgt & H). exists t, src, tgt. tauto.
Qed.

Lemma Forall2_elem_of_l {A B} (P : A → B → Prop) l k x :
  Forall2 P l k → x ∈ l → ∃ y, y ∈ k ∧ P x y.
Proof.
  induction 1 as [|a b l k Hab _ IH]; [by intros ?%elem_of_nil|].
  intros [->|Hx]%elem_of_cons.
  - exists b. split; [left|done].
  - destruct (IH Hx) as (y & Hy & HP). exists y. split; [by right|done].
Qed.

Lemma score_table_classification G dfs res acc r :
  compute_scores G dfs = Some res → res !! acc = Some r →
  classification r ∈ risk_order.
Proof.
  intros Hres Hr.
  destruct (compute_scores_record _ _ _ _ _ Hres Hr) as [Hin Hs].
  destruct (score_account_fields _ _ _ _ Hin Hs) as (_ & _ & _ & _ & -> & _).
  apply classify_label.
Qed.

Lemma get_transaction_arcs_score_table G dfs res :
  compute_scores G dfs = Some res →
  ∃ arcs, get_transaction_arcs res dfs = Some arcs
          ∧ Forall2 (λ a t, arc_for res t a) arcs
              (filter (λ t, sender t ∈ account_ids_of dfs
                            ∧ receiver t ∈ account_ids_of dfs) (transactions dfs)).
Proof.
  intros Hres.
  destruct (get_transaction_arcs res dfs) as [arcs|] eqn:Ha.
  - exists arcs. split; [done|].
    apply get_transaction_arcs_Some in Ha.
    erewrite list_filter_iff; [exact Ha|].
    intros t. unfold scored_endpoints.
    by rewrite <- (dom_compute_scores _ _ _ Hres), !elem_of_dom.
  - exfalso. apply get_transaction_arcs_None in Ha
      as (t & src & tgt & _ & Hs & Ht & [Hn|Hn]); apply Hn;
      by eapply score_table_classification.
Qed.

(** X12 (arcs of the pipeline).  On a score table of [compute_scores],
    [get_transaction_arcs] never fails and returns one arc for each
    transaction whose sender and receiver are both listed accounts, in table
    order, with the id, sender, receiver and amount of the transaction;
    transactions with an unlisted endpoint are skipped. *)
Theorem arcs_of_score_table G dfs res :
  compute_scores G dfs = Some res →
  ∃ arcs,
    get_transaction_arcs res dfs = Some arcs
    ∧ Forall2 (λ a t, arc_txn_id a = txn_id t ∧ arc_sender a = sender t
                      ∧ arc_receiver a = receiver t ∧ arc_amount a = amount t)
        arcs
        (filter (λ t, sender t ∈ account_ids_of dfs
                      ∧ receiver t ∈ account_ids_of dfs) (transactions dfs)).
Proof.
  intros Hres.
  destruct (get_transaction_arcs_score_table _ _ _ Hres) as (arcs & Ha & Hall).
  exists arcs. split; [done|].
  eapply Forall2_impl; [exact Hall|].
  intros a t (src & tgt & ks & kt & _ & _ & _ & _ & ->). done.
Qed.

Lemma arcs_of_score_table_witness :
  ∃ arcs,
    get_transaction_arcs
      (default ∅ (compute_scores (build_graph ex_unknown_receiver) ex_unknown_receiver))
      ex_unknown_receiver = Some arcs
    ∧ Forall2 (λ a t, arc_txn_id a = txn_id t ∧ arc_sender a = sender t
                      ∧ arc_receiver a = receiver t ∧ arc_amount a = amount t)
        arcs
        (filter (λ t, sender t ∈ account_ids_of ex_unknown_receiver
                      ∧ receiver t ∈ account_ids_of ex_unknown_receiver)
           (transactions ex_unknown_receiver)).
Proof.
  apply (arcs_of_score_table (build_graph ex_unknown_receiver)).
  vm_compute. reflexivity.
Defined.

(** X13 (arc endpoints and risk tier).  Every arc returned by
    [get_transaction_arcs] carries the holder names, coordinates and colours
    of the score records of its sender and receiver, and its risk tier is the
    classification of one of the two, the one ranked higher in the order
    CLEAN, WATCH, SUSPICIOUS, BLOCK. *)
Theorem arc_endpoints_and_tier scores dfs arcs a :
  get_transaction_arcs scores dfs = Some arcs → a ∈ arcs →
  ∃ src tgt ks kt,
    scores !! arc_sender a = Some src ∧ scores !! arc_receiver a = Some tgt
    ∧ arc_sender_name a = holder src ∧ arc_receiver_name a = holder tgt
    ∧ arc_src_lat a = lat src ∧ arc_src_lon a = lon src
    ∧ arc_tgt_lat a = lat tgt ∧ arc_tgt_lon a = lon tgt
    ∧ arc_src_color a = color_rgb src ∧ arc_tgt_color a = color_rgb tgt
    ∧ arc_risk_tier a ∈ [classification src; classification tgt]
    ∧ index_of (classification src) risk_order = Some ks
    ∧ index_of (classification tgt) risk_order = Some kt
    ∧ index_of (arc_risk_tier a) risk_order = Some (ks `max` kt)%nat.
Proof.
  intros Ha Hin. apply get_transaction_arcs_Some in Ha.
  destruct (Forall2_elem_of_l _ _ _ _ Ha Hin)
    as (t & _ & src & tgt & ks & kt & Hs & Ht & Hks & Hkt & ->).
  exists src, tgt, ks, kt. cbn [arc_sender arc_receiver arc_sender_name
    arc_receiver_name arc_src_lat arc_src_lon arc_tgt_lat arc_tgt_lon
    arc_src_color arc_tgt_color arc_risk_tier].
  repeat (split; [done|]).
  destruct (ks <? kt)%nat eqn:Hlt.
  - apply Nat.ltb_lt in Hlt. split; [set_solver|]. split; [done|].
    split; [done|]. rewrite Hkt. f_equal. lia.
  - apply Nat.ltb_ge in Hlt. split; [set_solver|]. split; [done|].
    split; [done|]. rewrite Hks. f_equal. lia.
Qed.

Lemma arc_endpoints_and_tier_witness :
  ∃ arcs a,
    get_transaction_arcs
      (default ∅ (compute_scores (build_graph ex_receiver) ex_receiver))
      ex_receiver = Some arcs
    ∧ a ∈ arcs
    ∧ ∃ src tgt ks kt,
        default ∅ (compute_scores (build_graph ex_receiver) ex_receiver)
          !! arc_sender a = Some src
        ∧ default ∅ (compute_scores (build_graph ex_receiver) ex_receiver)
            !! arc_receiver a = Some tgt
        ∧ arc_sender_name a = holder src ∧ arc_receiver_name a = holder tgt
        ∧ arc_src_lat a = lat src ∧ arc_src_lon a = lon src
        ∧ arc_tgt_lat a = lat tgt ∧ arc_tgt_lon a = lon tgt
        ∧ arc_src_color a = color_rgb src ∧ arc_tgt_color a = color_rgb tgt
        ∧ arc_risk_tier a ∈ [classification src; classification tgt]
        ∧ index_of (classification src) risk_order = Some ks
        ∧ index_of (classification tgt) risk_order = Some kt
        ∧ index_of (arc_risk_tier a) risk_order = Some (ks `max` kt)%nat.
Proof.
  eexists _, _. split; [vm_compute; reflexivity|]. split; [left|].
  eapply (arc_endpoints_and_tier
            (default ∅ (compute_scores (build_graph ex_receiver) ex_receiver))
            ex_receiver); [vm_compute; reflexivity|left].
Defined.

(** X14 (arc failure).  On an arbitrary score dictionary,
    [get_transaction_arcs] fails (the [ValueError] of [risk_order.index])
    exactly when some transaction has both endpoints in the dictionary and
    the classification of one of them is not one of the four tier labels. *)
Theorem arcs_fail_iff scores dfs :
  get_transaction_arcs scores dfs = None ↔
  ∃ t src tgt,
    t ∈ transactions dfs
    ∧ scores !! sender t = Some src ∧ scores !! receiver t = Some tgt
    ∧ (classification src ∉ ["CLEAN"; "WATCH"; "SUSPICIOUS"; "BLOCK"]
       ∨ classification tgt ∉ ["CLEAN"; "WATCH"; "SUSPICIOUS"; "BLOCK"]).
Proof. apply get_transaction_arcs_None. Qed.

(* ===================================================================== *)
(** * Ring clusters *)
(* ===================================================================== *)

Lemma assoc_NoDup {V} k (d : list (string * V)) v :
  NoDup d.*1 → (k, v) ∈ d → assoc k d = Some v.
Proof.
  induction d as [|[k' v'] d IH]; simpl; intros Hnd Hin.
  - by apply elem_of_nil in Hin.
  - apply NoDup_cons in Hnd as [Hk' Hnd].
    apply elem_of_cons in Hin as [[= <- <-]|Hin].
    + by rewrite String.eqb_refl.
    + destruct (String.eqb k k') eqn:Hk; [|by apply IH].
      apply String.eqb_eq in Hk as ->. exfalso. apply Hk'.
      apply list_elem_of_fmap. by exists (k', v).
Qed.

Lemma ring_append_lookup k d gs k0 :
  default [] (assoc k0 (ring_append k d gs))
  = default [] (assoc k0 gs) ++ (if decide (k0 = k) then [d] else []).
Proof.
  induction gs as [|[k' l] gs IH]; simpl.
  - destruct (decide (k0 = k)) as [->|Hne].
    + by rewrite String.eqb_refl.
    + by apply String.eqb_neq in Hne as ->.
  - destruct (String.eqb k k') eqn:Hk; simpl.
    + apply String.eqb_eq in Hk as ->.
      destruct (decide (k0 = k')) as [->|Hne].
      * by rewrite String.eqb_refl.
      * apply String.eqb_neq in Hne as ->. by rewrite app_nil_r.
    + apply String.eqb_neq in Hk.
      destruct (String.eqb k0 k') eqn:Hk0; [|exact IH].
      apply String.eqb_eq in Hk0 as ->. simpl.
      rewrite decide_False by done. by rewrite app_nil_r.
Qed.

Lemma ring_append_keys k d gs :
  (ring_append k d gs).*1 = if decide (k ∈ gs.*1) then gs.*1 else gs.*1 ++ [k].
Proof.
  induction gs as [|[k' l] gs IH].
  - cbn [ring_append fmap list_fmap fst app].
    destruct (decide (k ∈ [])) as [Hin|_]; [|done].
    by apply elem_of_nil in Hin.
  - cbn [ring_append]. destruct (String.eqb k k') eqn:Hk.
    + apply String.eqb_eq in Hk as ->. rewrite !fmap_cons. cbn [fst].
      destruct (decide (k' ∈ k' :: gs.*1)) as [_|Hin]; [done|].
      exfalso. apply Hin. left.
    + apply String.eqb_neq in Hk. rewrite !fmap_cons. cbn [fst]. rewrite IH.
      destruct (decide (k ∈ gs.*1)) as [Hin|Hin];
        destruct (decide (k ∈ k' :: gs.*1)) as [Hin'|Hin']; try done.
      * exfalso. apply Hin'. by right.
      * exfalso. apply elem_of_cons in Hin' as [?|?]; done.
Qed.

Lemma ring_append_NoDup k d gs : NoDup gs.*1 → NoDup (ring_append k d gs).*1.
Proof.
  intros Hnd. rewrite ring_append_keys. case_decide as Hin; [done|].
  apply NoDup_app. split; [done|]. split; [|apply NoDup_singleton].
  intros x Hx ->%list_elem_of_singleton. done.
Qed.

Lemma ring_append_nonempty k d gs :
  Forall (λ g, g.2 ≠ []) gs → Forall (λ g, g.2 ≠ []) (ring_append k d gs).
Proof.
  induction 1 as [|[k' l] gs Hl Hgs IH]; simpl.
  - by constructor.
  - destruct (String.eqb k k').
    + constructor; [|done]. simpl. by intros [? ?]%app_eq_nil.
    + by constructor.
Qed.

Lemma ring_groups_snoc items it :
  ring_groups (items ++ [it])
  = if bool_decide (classification it.2 ∈ ["BLOCK"; "SUSPICIOUS"])
    then ring_append (ring it.2) it.2 (ring_groups items)
    else ring_groups items.
Proof. unfold ring_groups. by rewrite foldl_app. Qed.

Lemma ring_members_snoc k items it :
  ring_members k (items ++ [it])
  = ring_members k items
    ++ (if decide (risky it.2 ∧ ring it.2 = k) then [it.2] else []).
Proof.
  unfold ring_members. rewrite fmap_app, filter_app. f_equal.
Qed.

Lemma ring_groups_invariant items :
  NoDup (ring_groups items).*1
  ∧ Forall (λ g, g.2 ≠ []) (ring_groups items)
  ∧ ∀ k, default [] (assoc k (ring_groups items)) = ring_members k items.
Proof.
  induction items as [|it items (Hnd & Hne & Hlk)] using rev_ind.
  - split; [constructor|]. split; [constructor|]. done.
  - rewrite ring_groups_snoc. case_bool_decide as Hr.
    + split; [by apply ring_append_NoDup|].
      split; [by apply ring_append_nonempty|].
      intros k. rewrite ring_append_lookup, Hlk, ring_members_snoc. f_equal.
      destruct (decide (k = ring it.2)) as [->|Hk].
      * rewrite decide_True; done.
      * rewrite decide_False; [done|]. intros [_ ?]. by apply Hk.
    + split; [done|]. split; [done|].
      intros k. rewrite Hlk, ring_members_snoc.
      rewrite decide_False; [by rewrite app_nil_r|]. by intros [? _].
Qed.

(** The groups are the non-empty member lists, one per ring. *)
Lemma elem_of_ring_groups items k l :
  (k, l) ∈ ring_groups items ↔ l = ring_members k items ∧ l ≠ [].
Proof.
  destruct (ring_groups_invariant items) as (Hnd & Hne & Hlk). split.
  - intros Hin. split.
    + by rewrite <- Hlk, (assoc_NoDup _ _ _ Hnd Hin).
    + by apply (proj1 (Forall_forall _ _) Hne _ Hin).
  - intros [-> Hl]. rewrite <- Hlk in *.
    destruct (assoc k (ring_groups items)) as [l|] eqn:Ha; [|done].
    by apply assoc_Some.
Qed.

Lemma cluster_of_Some k l c :
  cluster_of k l = Some c →
  (2 ≤ length l)%nat
  ∧ c_ring c = k ∧ c_count c = length l ∧ c_label c = "Ring " +:+ k
  ∧ 1800 ≤ c_radius c
  ∧ c_color c = (if existsb (λ m, String.eqb (classification m) "BLOCK") l
                 then [255; 34; 68; 35] else [255; 140; 0; 35])
  ∧ c_lat c = mean (lat <$> l) ∧ c_lon c = mean (lon <$> l).
Proof.
  unfold cluster_of. destruct (length l <? 2)%nat eqn:Hlen; [done|].
  apply Nat.ltb_ge in Hlen. destruct l as [|m0 rest]; [done|].
  intros [= <-]. cbn [c_ring c_count c_label c_radius c_color c_lat c_lon].
  repeat split; try done. lia.
Qed.

Lemma cluster_of_is_Some k l : (2 ≤ length l)%nat → is_Some (cluster_of k l).
Proof.
  intros Hlen. unfold cluster_of.
  destruct (length l <? 2)%nat eqn:Hlt; [apply Nat.ltb_lt in Hlt; lia|].
  destruct l; [simpl in Hlen; lia|]. by eexists.
Qed.

Lemma elem_of_get_ring_clusters scores c :
  c ∈ get_ring_clusters scores ↔
  ∃ k, cluster_of k (ring_members k (map_to_list scores)) = Some c.
Proof.
  unfold get_ring_clusters, ring_accounts. fold (ring_groups (map_to_list scores)).
  rewrite list_elem_of_omap. split.
  - intros ([k l] & Hin & Hc). apply elem_of_ring_groups in Hin as [-> _].
    by exists k.
  - intros (k & Hc). exists (k, ring_members k (map_to_list scores)).
    split; [|done]. apply elem_of_ring_groups. split; [done|].
    apply cluster_of_Some in Hc as (Hlen & _). intros Hnil.
    rewrite Hnil in Hlen. simpl in Hlen. lia.
Qed.

Lemma cluster_rings gs :
  c_ring <$> omap (λ g, cluster_of g.1 g.2) gs
  = (filter (λ g : string * list ScoreRecord, (2 ≤ length g.2)%nat) gs).*1.
Proof.
  induction gs as [|[k l] gs IH]; [done|].
  rewrite filter_cons. cbn [omap list_omap fst snd].
  destruct (cluster_of k l) as [c|] eqn:Hc.
  - apply cluster_of_Some in Hc as (Hlen & <- & _).
    rewrite decide_True by done. rewrite !fmap_cons. by rewrite IH.
  - rewrite decide_False; [done|]. intros Hlen.
    apply (cluster_of_is_Some k) in Hlen as [? ?]. congruence.
Qed.

Lemma elem_of_ring_members (scores : gmap string ScoreRecord) k d :
  d ∈ ring_members k (map_to_list scores) ↔
  ∃ acc, scores !! acc = Some d ∧ risky d ∧ ring d = k.
Proof.
  unfold ring_members. rewrite list_elem_of_filter, list_elem_of_fmap. split.
  - intros (Hr & [acc d'] & -> & Hin). exists acc.
    by apply elem_of_map_to_list in Hin.
  - intros (acc & Hlk & Hr). split; [done|]. exists (acc, d).
    split; [done|]. by apply elem_of_map_to_list.
Qed.

Lemma existsb_block (l : list ScoreRecord) :
  existsb (λ m, String.eqb (classification m) "BLOCK") l = true ↔
  ∃ d, d ∈ l ∧ classification d = "BLOCK".
Proof.
  rewrite existsb_exists. split.
  - intros (d & Hin & Heq). exists d. split; [by apply list_elem_of_In|].
    by apply String.eqb_eq.
  - intros (d & Hin & Heq). exists d. split; [by apply list_elem_of_In|].
    by apply String.eqb_eq.
Qed.

Lemma get_ring_clusters_NoDup scores :
  NoDup (c_ring <$> get_ring_clusters scores).
Proof.
  unfold get_ring_clusters, ring_accounts.
  fold (ring_groups (map_to_list scores)). rewrite cluster_rings.
  destruct (ring_groups_invariant (map_to_list scores)) as (Hnd & _).
  eapply sublist_NoDup; [exact Hnd|]. apply fmap_sublist, sublist_filter.
Qed.

Lemma cluster_members scores c :
  c ∈ get_ring_clusters scores →
  cluster_of (c_ring c) (ring_members (c_ring c) (map_to_list scores)) = Some c.
Proof.
  intros (k & Hc)%elem_of_get_ring_clusters.
  pose proof (cluster_of_Some _ _ _ Hc) as (_ & <- & _). done.
Qed.

(** X15 (get_ring_clusters, grouping).  The clusters are one per ring label:
    no two clusters carry the same ring; a ring has a cluster exactly when
    at least two records of the score table that are classified BLOCK or
    SUSPICIOUS carry that ring; and the cluster's count is the number of
    those records, its label the ring prefixed by "Ring ". *)
Theorem ring_clusters_per_ring (scores : gmap string ScoreRecord) :
  NoDup (c_ring <$> get_ring_clusters scores)
  ∧ (∀ ρ, (∃ c, c ∈ get_ring_clusters scores ∧ c_ring c = ρ)
          ↔ (2 ≤ length (ring_members ρ (map_to_list scores)))%nat)
  ∧ (∀ c, c ∈ get_ring_clusters scores →
          c_count c = length (ring_members (c_ring c) (map_to_list scores))
          ∧ c_label c = "Ring " +:+ c_ring c).
Proof.
  split; [apply get_ring_clusters_NoDup|]. split.
  - intros ρ. split.
    + intros (c & Hin & <-). apply cluster_members in Hin.
      by apply cluster_of_Some in Hin as (Hlen & _).
    + intros Hlen. destruct (cluster_of_is_Some ρ _ Hlen) as [c Hc].
      exists c. split.
      * apply elem_of_get_ring_clusters. by exists ρ.
      * by apply cluster_of_Some in Hc as (_ & Hr & _).
  - intros c Hin. apply cluster_members in Hin.
    apply cluster_of_Some in Hin as (_ & _ & Hcnt & Hlab & _). done.
Qed.

(** X16 (get_ring_clusters, radius and colour).  Every cluster has a radius
    of at least 1800 metres; it is drawn in red [255, 34, 68, 35] when some
    record of its ring is classified BLOCK, and in orange [255, 140, 0, 35]
    when none is. *)
Theorem cluster_radius_and_colour (scores : gmap string ScoreRecord) c :
  c ∈ get_ring_clusters scores →
  1800 ≤ c_radius c
  ∧ ((∃ acc d, scores !! acc = Some d ∧ ring d = c_ring c
               ∧ classification d = "BLOCK")
     → c_color c = [255; 34; 68; 35])
  ∧ (¬ (∃ acc d, scores !! acc = Some d ∧ ring d = c_ring c
                 ∧ classification d = "BLOCK")
     → c_color c = [255; 140; 0; 35]).
Proof.
  intros Hin. apply cluster_members in Hin.
  apply cluster_of_Some in Hin as (_ & _ & _ & _ & Hrad & Hcol & _).
  split; [done|]. rewrite Hcol.
  destruct (existsb _ _) eqn:Hex.
  - split; [done|]. intros Hno. exfalso. apply Hno.
    apply existsb_block in Hex as (d & Hd & Hb).
    apply elem_of_ring_members in Hd as (acc & Hlk & _ & Hr).
    by exists acc, d.
  - split; [|done]. intros (acc & d & Hlk & Hr & Hb).
    assert (existsb (λ m, String.eqb (classification m) "BLOCK")
              (ring_members (c_ring c) (map_to_list scores)) = true) as Ht;
      [|congruence].
    apply existsb_block. exists d. split; [|done].
    apply elem_of_ring_members. exists acc. split; [done|]. split; [|done].
    unfold risky. rewrite Hb. left.
Qed.

Lemma cluster_radius_and_colour_witness :
  ∃ S c, compute_scores (build_graph ex_all_flags) ex_all_flags = Some S
    ∧ c ∈ get_ring_clusters S
    ∧ 1800 ≤ c_radius c
    ∧ ((∃ acc d, S !! acc = Some d ∧ ring d = c_ring c
                 ∧ classification d = "BLOCK")
       → c_color c = [255; 34; 68; 35])
    ∧ (¬ (∃ acc d, S !! acc = Some d ∧ ring d = c_ring c
                   ∧ classification d = "BLOCK")
       → c_color c = [255; 140; 0; 35]).
Proof.
  eexists _, _. split; [vm_compute; reflexivity|].
  split; [|eapply cluster_radius_and_colour]; vm_compute; left.
Defined.

Lemma least_element (l : list Q) :
  l ≠ [] → ∃ x, x ∈ l ∧ ∀ y, y ∈ l → (x <= y)%Q.
Proof.
  induction l as [|a l IH]; [done|]. intros _.
  destruct l as [|b l].
  - exists a. split; [left|]. intros y ->%list_elem_of_singleton. apply Qle_refl.
  - destruct IH as (x & Hx & Hmin); [done|].
    destruct (Qlt_le_dec a x) as [Hlt|Hle].
    + exists a. split; [left|]. intros y [->|Hy]%elem_of_cons; [apply Qle_refl|].
      apply Qlt_le_weak. eapply Qlt_le_trans; [exact Hlt|by apply Hmin].
    + exists x. split; [by right|].
      intros y [->|Hy]%elem_of_cons; [done|by apply Hmin].
Qed.

Lemma greatest_element (l : list Q) :
  l ≠ [] → ∃ x, x ∈ l ∧ ∀ y, y ∈ l → (y <= x)%Q.
Proof.
  induction l as [|a l IH]; [done|]. intros _.
  destruct l as [|b l].
  - exists a. split; [left|]. intros y ->%list_elem_of_singleton. apply Qle_refl.
  - destruct IH as (x & Hx & Hmax); [done|].
    destruct (Qlt_le_dec x a) as [Hlt|Hle].
    + exists a. split; [left|]. intros y [->|Hy]%elem_of_cons; [apply Qle_refl|].
      apply Qlt_le_weak. eapply Qle_lt_trans; [by apply Hmax|exact Hlt].
    + exists x. split; [by right|].
      intros y [->|Hy]%elem_of_cons; [done|by apply Hmax].
Qed.

Lemma inject_length_cons {A} (a : A) (l : list A) :
  (inject_Z (Z.of_nat (length (a :: l))) == inject_Z (Z.of_nat (length l)) + 1)%Q.
Proof.
  cbn [length]. rewrite Nat2Z.inj_succ, <- Z.add_1_r, inject_Z_plus. reflexivity.
Qed.

Lemma sum_ge (l : list Q) x :
  (∀ y, y ∈ l → (x <= y)%Q) →
  (inject_Z (Z.of_nat (length l)) * x <= foldr Qplus 0 l)%Q.
Proof.
  induction l as [|a l IH]; intros Hmin.
  - change (0 * x <= 0)%Q. lra.
  - rewrite inject_length_cons. cbn [foldr].
    assert (x <= a)%Q by (apply Hmin; left).
    assert (inject_Z (Z.of_nat (length l)) * x <= foldr Qplus 0 l)%Q
      by (apply IH; intros y Hy; apply Hmin; by right).
    rewrite Qmult_plus_distr_l. lra.
Qed.

Lemma sum_le (l : list Q) x :
  (∀ y, y ∈ l → (y <= x)%Q) →
  (foldr Qplus 0 l <= inject_Z (Z.of_nat (length l)) * x)%Q.
Proof.
  induction l as [|a l IH]; intros Hmax.
  - change (0 <= 0 * x)%Q. lra.
  - rewrite inject_length_cons. cbn [foldr].
    assert (a <= x)%Q by (apply Hmax; left).
    assert (foldr Qplus 0 l <= inject_Z (Z.of_nat (length l)) * x)%Q
      by (apply IH; intros y Hy; apply Hmax; by right).
    rewrite Qmult_plus_distr_l. lra.
Qed.

(** The mean of a non-empty list lies between two of its elements. *)
Lemma mean_bounds (l : list Q) :
  l ≠ [] → ∃ x y, x ∈ l ∧ y ∈ l ∧ (x <= mean l)%Q ∧ (mean l <= y)%Q.
Proof.
  intros Hne.
  destruct (least_element l Hne) as (x & Hx & Hmin).
  destruct (greatest_element l Hne) as (y & Hy & Hmax).
  exists x, y. split; [done|]. split; [done|].
  assert (0 < inject_Z (Z.of_nat (length l)))%Q as Hpos.
  { rewrite <- (Zlt_Qlt 0). destruct l; [done|]. cbn [length]. lia. }
  unfold mean. split.
  - apply Qle_shift_div_l; [done|]. rewrite Qmult_comm. by apply sum_ge.
  - apply Qle_shift_div_r; [done|]. rewrite Qmult_comm. by apply sum_le.
Qed.

Lemma mean_members (f : ScoreRecord → Q) (scores : gmap string ScoreRecord) k :
  ring_members k (map_to_list scores) ≠ [] →
  ∃ acc1 d1 acc2 d2,
    scores !! acc1 = Some d1 ∧ risky d1 ∧ ring d1 = k
    ∧ scores !! acc2 = Some d2 ∧ risky d2 ∧ ring d2 = k
    ∧ (f d1 <= mean (f <$> ring_members k (map_to_list scores)))%Q
    ∧ (mean (f <$> ring_members k (map_to_list scores)) <= f d2)%Q.
Proof.
  intros Hne.
  destruct (mean_bounds (f <$> ring_members k (map_to_list scores)))
    as (x & y & Hx & Hy & Hlo & Hhi).
  { intros Hnil. by apply fmap_nil_inv in Hnil. }
  apply list_elem_of_fmap in Hx as (d1 & -> & Hd1).
  apply list_elem_of_fmap in Hy as (d2 & -> & Hd2).
  apply elem_of_ring_members in Hd1 as (acc1 & ? & ? & ?).
  apply elem_of_ring_members in Hd2 as (acc2 & ? & ? & ?).
  by exists acc1, d1, acc2, d2.
Qed.

(** X17 (get_ring_clusters, centroid).  The centre of a cluster lies inside
    the span of its members: its latitude is between the latitudes of two
    BLOCK or SUSPICIOUS records of the cluster's ring, and so is its
    longitude between two longitudes. *)
Theorem cluster_centre_within_members (scores : gmap string ScoreRecord) c :
  c ∈ get_ring_clusters scores →
  (∃ acc1 d1 acc2 d2,
      scores !! acc1 = Some d1 ∧ risky d1 ∧ ring d1 = c_ring c
      ∧ scores !! acc2 = Some d2 ∧ risky d2 ∧ ring d2 = c_ring c
      ∧ (lat d1 <= c_lat c)%Q ∧ (c_lat c <= lat d2)%Q)
  ∧ (∃ acc1 d1 acc2 d2,
      scores !! acc1 = Some d1 ∧ risky d1 ∧ ring d1 = c_ring c
      ∧ scores !! acc2 = Some d2 ∧ risky d2 ∧ ring d2 = c_ring c
      ∧ (lon d1 <= c_lon c)%Q ∧ (c_lon c <= lon d2)%Q).
Proof.
  intros Hin. apply cluster_members in Hin.
  apply cluster_of_Some in Hin as (Hlen & _ & _ & _ & _ & _ & -> & ->).
  assert (ring_members (c_ring c) (map_to_list scores) ≠ []) as Hne.
  { intros Hnil. rewrite Hnil in Hlen. simpl in Hlen. lia. }
  split; by apply mean_members.
Qed.

Lemma cluster_centre_within_members_witness :
  ∃ S c, compute_scores (build_graph ex_all_flags) ex_all_flags = Some S
    ∧ c ∈ get_ring_clusters S
    ∧ (∃ acc1 d1 acc2 d2,
          S !! acc1 = Some d1 ∧ risky d1 ∧ ring d1 = c_ring c
          ∧ S !! acc2 = Some d2 ∧ risky d2 ∧ ring d2 = c_ring c
          ∧ (lat d1 <= c_lat c)%Q ∧ (c_lat c <= lat d2)%Q)
    ∧ (∃ acc1 d1 acc2 d2,
          S !! acc1 = Some d1 ∧ risky d1 ∧ ring d1 = c_ring c
          ∧ S !! acc2 = Some d2 ∧ risky d2 ∧ ring d2 = c_ring c
          ∧ (lon d1 <= c_lon c)%Q ∧ (c_lon c <= lon d2)%Q).
Proof.
  eexists _, _. split; [vm_compute; reflexivity|].
  split; [|eapply cluster_centre_within_members]; vm_compute; left.
Defined.

(* ===================================================================== *)
(** * The whole pipeline *)
(* ===================================================================== *)

Lemma get_ring_clusters_empty : get_ring_clusters ∅ = [].
Proof. unfold get_ring_clusters, ring_accounts. by rewrite map_to_list_empty. Qed.

Lemma full_pipeline_outputs_Some dfs :
  ∃ scores arcs,
    full_pipeline_outputs dfs
    = Some (build_graph dfs, scores, arcs, get_ring_clusters scores, dfs)
    ∧ compute_scores (build_graph dfs) dfs = Some scores
    ∧ get_transaction_arcs scores dfs = Some arcs.
Proof.
  destruct (compute_scores_build_graph dfs) as [scores Hs].
  destruct (get_transaction_arcs_score_table _ _ _ Hs) as (arcs & Ha & _).
  exists scores, arcs. unfold full_pipeline_outputs.
  rewrite Hs. unfold mbind, option_bind. by rewrite Ha.
Qed.


(** X9 (full_pipeline, no accounts).  When the accounts table is empty the
    pipeline returns an empty score table, no arcs and no clusters, whatever
    the other three tables hold. *)
Theorem no_accounts_no_scores (dfs : DataFrames) :
  accounts dfs = [] →
  full_pipeline_outputs dfs = Some (build_graph dfs, ∅, [], [], dfs).
Proof.
  intros Hacc.
  destruct (full_pipeline_outputs_Some dfs) as (scores & arcs & Hp & Hs & Ha).
  assert (account_ids_of dfs = ∅) as Hids.
  { unfold account_ids_of. by rewrite Hacc. }
  assert (scores = ∅) as ->.
  { apply dom_empty_iff_L. rewrite <- Hids. by eapply dom_compute_scores. }
  destruct (get_transaction_arcs_score_table _ _ _ Hs) as (arcs' & Ha' & Hf).
  assert (arcs' = arcs) as -> by congruence.
  rewrite filter_none in Hf.
  - apply Forall2_nil_inv_r in Hf as ->.
    by rewrite Hp, get_ring_clusters_empty.
  - intros t _ [Hsnd _]. rewrite Hids in Hsnd. by apply not_elem_of_empty in Hsnd.
Qed.

Lemma no_accounts_no_scores_witness :
  accounts ex_no_accounts = []
  ∧ full_pipeline_outputs ex_no_accounts
    = Some (build_graph ex_no_accounts, ∅, [], [], ex_no_accounts).
Proof.
  split; [reflexivity|]. apply no_accounts_no_scores. reflexivity.
Defined.

Lemma dom_own_scores G dfs : dom (own_scores G dfs) = account_ids_of dfs.
Proof.
  apply set_eq. intros acc. rewrite elem_of_dom, own_scores_lookup.
  case_decide; split; try done; by intros [? ?].
Qed.

Lemma phase2_final_scores_lookup G dfs acc :
  phase2_final_scores G dfs !! acc
  = (λ own, phase2_final_score (own_scores G dfs)
              (neighbours G (account_ids_of dfs) acc) own)
    <$> own_scores G dfs !! acc.
Proof.
  unfold phase2_final_scores. cbv zeta. rewrite map_lookup_imap.
  by destruct (own_scores G dfs !! acc).
Qed.

Lemma dom_phase2_classifications G dfs :
  dom (phase2_classifications G dfs) = account_ids_of dfs.
Proof.
  unfold phase2_classifications. rewrite dom_fmap_L, <- (dom_own_scores G dfs).
  apply set_eq. intros acc.
  rewrite !elem_of_dom, phase2_final_scores_lookup, fmap_is_Some. done.
Qed.

(** Labels drawn from the four tiers are counted once each. *)
Lemma tier_counts (l : list string) :
  Forall (λ c, c ∈ risk_order) l →
  (length (filter (λ c, c = "BLOCK") l)
   + length (filter (λ c, c = "SUSPICIOUS") l)
   + length (filter (λ c, c = "WATCH") l)
   + length (filter (λ c, c = "CLEAN") l))%nat = length l.
Proof.
  induction 1 as [|c l Hc _ IH]; [done|].
  rewrite !filter_cons. cbn [length]. rewrite <- IH.
  unfold risk_order in Hc. rewrite !elem_of_cons, elem_of_nil in Hc.
  destruct Hc as [->|[->|[->|[->|[]]]]];
    repeat (first [rewrite decide_True by done | rewrite decide_False by done]);
    cbn [length]; lia.
Qed.





(** X20 (Risk_scorer.py, export summary).  The script classifies exactly the
    listed accounts, and the four tier counts of its summary add up to the
    number of listed accounts: every account is counted in one tier. *)
Theorem phase2_summary_partition G dfs :
  dom (phase2_classifications G dfs) = account_ids_of dfs
  ∧ (phase2_summary_count (phase2_classifications G dfs) "BLOCK"
     + phase2_summary_count (phase2_classifications G dfs) "SUSPICIOUS"
     + phase2_summary_count (phase2_classifications G dfs) "WATCH"
     + phase2_summary_count (phase2_classifications G dfs) "CLEAN")%nat
    = size (account_ids_of dfs).
Proof.
  split; [apply dom_phase2_classifications|].
  unfold phase2_summary_count. rewrite tier_counts.
  - rewrite length_fmap, length_map_to_list, <- size_dom.
    by rewrite dom_phase2_classifications.
  - apply Forall_forall. intros c ([acc c'] & -> & Hin)%list_elem_of_fmap.
    apply elem_of_map_to_list in Hin. unfold phase2_classifications in Hin.
    rewrite lookup_fmap in Hin.
    destruct (phase2_final_scores G dfs !! acc) as [q|]; [|done].
    injection Hin as <-. apply classify_label.
Qed.
